(** * Verification of the glob performance caches (src/cache.ts)

    A shallow embedding of the module's three caches (compiled patterns,
    memoized results with a time-to-live, stat results), of its key
    derivations and of the fast path for simple patterns, with the
    properties its specification states about them.

    Conventions of the embedding.
    - A JavaScript string is a [string]: a sequence of code units, here
      one byte each.  The default ordering of [Array.prototype.sort]
      compares strings code unit by code unit, which is [String.leb].
    - A JavaScript array is mutable and passed by reference: arrays live
      in a heap ([list (list string)], a reference is an index) so that
      aliasing between the caller and a cache is visible.
    - [Map] objects are [gmap]s with string keys.
    - [Date.now()] is an explicit argument of the operations that read
      the clock, in integer milliseconds.
    - The regular expressions of the source are terms of a small regular
      expression language, run by a backtracking matcher. *)

From Stdlib Require Import Ascii String ZArith Lia Permutation.
From stdpp Require Import base option list gmap strings sorting pretty.

Local Open Scope string_scope.

(** ** Regular expressions, as far as the source uses them *)

Module RegExp.

(** The syntax: assertions [^] and [$], a literal character, a character
    class, sequence, the greedy quantifiers [?] and [+], and the (single)
    capturing group. *)
Inductive Regex : Type :=
| RAssertStart
| RAssertEnd
| RChar (c : ascii)
| RClass (f : ascii -> bool)
| RSeq (r1 r2 : Regex)
| ROpt (r : Regex)
| RPlus (r : Regex)
| RGroup (r : Regex).

(** A matcher state: the index reached in the input, the input that is
    left, and the text captured by the group so far. *)
Record MState : Type := mkMState {
  pos : nat;
  rest : string;
  cap1 : option string
}.

Definition advance (st : MState) (s' : string) : MState :=
  {| pos := S (pos st); rest := s'; cap1 := cap1 st |}.

Definition set_capture (st0 st' : MState) : MState :=
  {| pos := pos st';
     rest := rest st';
     cap1 := Some (substring 0 (pos st' - pos st0) (rest st0)) |}.

Definition or_else {A} (x y : option A) : option A :=
  match x with Some _ => x | None => y end.

(** The backtracking matcher, in continuation-passing style: [k] is what
    is left to match.  A quantifier tries the longer match first and falls
    back to the continuation.  [fuel] bounds the iterations of [+]; each
    iteration of the classes used here consumes a character, so the length
    of the input plus one is enough. *)
Fixpoint rmatch (fuel : nat) : Regex -> MState -> (MState -> option MState) -> option MState :=
  fix go (r : Regex) (st : MState) (k : MState -> option MState) {struct r} : option MState :=
    match r with
    | RAssertStart => if Nat.eqb (pos st) 0 then k st else None
    | RAssertEnd => match rest st with EmptyString => k st | String _ _ => None end
    | RChar c =>
        match rest st with
        | String a s' => if Ascii.eqb a c then k (advance st s') else None
        | EmptyString => None
        end
    | RClass f =>
        match rest st with
        | String a s' => if f a then k (advance st s') else None
        | EmptyString => None
        end
    | RSeq r1 r2 => go r1 st (fun st' => go r2 st' k)
    | ROpt r1 => or_else (go r1 st k) (k st)
    | RPlus r1 =>
        match fuel with
        | O => None
        | S fuel' =>
            go r1 st (fun st' => or_else (rmatch fuel' (RPlus r1) st' k) (k st'))
        end
    | RGroup r1 => go r1 st (fun st' => k (set_capture st st'))
    end.

(** The match object of [RegExp.prototype.exec]: where the match starts,
    the matched text (element 0) and the capture (element 1). *)
Record Match : Type := mkMatch {
  index : nat;
  matched : string;
  group1 : option string
}.

Definition match_at (fuel : nat) (r : Regex) (i : nat) (s : string) : option Match :=
  match rmatch fuel r {| pos := i; rest := s; cap1 := None |} Some with
  | Some st' => Some {| index := i;
                        matched := substring 0 (pos st' - i) s;
                        group1 := cap1 st' |}
  | None => None
  end.

(** [exec] without the [g] or [y] flag starts at index 0 and moves the
    start to the right until a match is found. *)
Fixpoint exec_from (fuel : nat) (r : Regex) (i : nat) (s : string) : option Match :=
  match match_at fuel r i s with
  | Some m => Some m
  | None =>
      match s with
      | EmptyString => None
      | String _ s' => exec_from fuel r (S i) s'
      end
  end.

Definition exec (r : Regex) (s : string) : option Match :=
  exec_from (S (String.length s)) r 0 s.

Definition test (r : Regex) (s : string) : bool :=
  match exec r s with Some _ => true | None => false end.

(** [\w] is [[A-Za-z0-9_]]. *)
Definition word_char (c : ascii) : bool :=
  let n := nat_of_ascii c in
  (((48 <=? n) && (n <=? 57)) || ((65 <=? n) && (n <=? 90))
   || ((97 <=? n) && (n <=? 122)) || (n =? 95))%nat.

(** The class [[?[\]{}()+@!]]. *)
Definition glob_special_char (c : ascii) : bool :=
  existsb (Ascii.eqb c)
    ["?"; "["; "]"; "{"; "}"; "("; ")"; "+"; "@"; "!"]%char.

(** [/^\*\*?\.\w+$/] *)
Definition re_star_ext : Regex :=
  RSeq RAssertStart (RSeq (RChar "*") (RSeq (ROpt (RChar "*"))
    (RSeq (RChar ".") (RSeq (RPlus (RClass word_char)) RAssertEnd)))).

(** [/[?[\]{}()+@!]/] *)
Definition re_glob_special : Regex := RClass glob_special_char.

(** [/^\*\.(\w+)$/] *)
Definition re_simple_ext : Regex :=
  RSeq RAssertStart (RSeq (RChar "*") (RSeq (RChar ".")
    (RSeq (RGroup (RPlus (RClass word_char))) RAssertEnd))).

(** [/^\*\*\.(\w+)$/] *)
Definition re_recursive_ext : Regex :=
  RSeq RAssertStart (RSeq (RChar "*") (RSeq (RChar "*") (RSeq (RChar ".")
    (RSeq (RGroup (RPlus (RClass word_char))) RAssertEnd)))).

End RegExp.

(** ** The fast path for simple patterns *)

(** [String.prototype.endsWith]: the search string is compared with the
    last [length suffix] code units of the string. *)
Definition endsWith (s suffix : string) : bool :=
  let n := String.length s in
  let m := String.length suffix in
  if (n <? m)%nat then false
  else String.eqb (substring (n - m) m s) suffix.

(** [isSimplePattern] *)
Definition isSimplePattern (pattern : string) : bool :=
  if RegExp.test RegExp.re_star_ext pattern then true
  else if negb (RegExp.test RegExp.re_glob_special pattern) then true
  else false.

(** Element 1 of a match array, in a string concatenation: a group that
    took no part in the match reads as [undefined]. *)
Definition capture_text (m : RegExp.Match) : string :=
  match RegExp.group1 m with Some s => s | None => "undefined" end.

(** [fastPathMatch]: [Some b] is the boolean [b], [None] is [null]. *)
Definition fastPathMatch (pattern filename : string) : option bool :=
  match RegExp.exec RegExp.re_simple_ext pattern with
  | Some simpleExt => Some (endsWith filename ("." ++ capture_text simpleExt))
  | None =>
      match RegExp.exec RegExp.re_recursive_ext pattern with
      | Some recursiveExt =>
          Some (endsWith filename ("." ++ capture_text recursiveExt))
      | None => None
      end
  end.

(** ** JavaScript values and objects *)

(** What the embedding takes from the JavaScript runtime: the numbers,
    with [ToBoolean] on them (false on zero and NaN), whether a number is
    finite and [Number::toString]; and the JSON text of an object value,
    which depends on the object's own properties and [toJSON] method
    ([None] when the object is left out of the enclosing object). *)
Class Host : Type := {
  Num : Type;
  num_is_falsy : Num -> bool;
  num_is_finite : Num -> bool;
  num_to_string : Num -> string;
  JsTypeError : Type;
  bigint_not_serializable : JsTypeError;
  object_to_json : nat -> JsTypeError + option string
}.

(** A completion: a value, or a thrown error. *)
Inductive Completion (E A : Type) : Type :=
| Normal (a : A)
| Throw (e : E).
Arguments Normal {E A} a.
Arguments Throw {E A} e.

(** A thrown error leaves the remaining steps out. *)
Global Instance Completion_bind {E} : MBind (Completion E) :=
  fun A B (f : A -> Completion E B) (c : Completion E A) =>
    match c with
    | Normal a => f a
    | Throw e => Throw e
    end.

Section Values.
Context `{Host}.

(** Objects and functions are opaque: a value of these types is a
    reference. *)
Inductive JsValue : Type :=
| VUndefined
| VNull
| VBool (b : bool)
| VNumber (n : Num)
| VString (s : string)
| VBigInt (z : Z)
| VSymbol (id : nat)
| VObject (ref : nat)
| VFunction (ref : nat).

Definition typeof (v : JsValue) : string :=
  match v with
  | VUndefined => "undefined"
  | VNull => "object"
  | VBool _ => "boolean"
  | VNumber _ => "number"
  | VString _ => "string"
  | VBigInt _ => "bigint"
  | VSymbol _ => "symbol"
  | VObject _ => "object"
  | VFunction _ => "function"
  end.

Definition ToBoolean (v : JsValue) : bool :=
  match v with
  | VUndefined => false
  | VNull => false
  | VBool b => b
  | VNumber n => negb (num_is_falsy n)
  | VString s => negb (String.eqb s EmptyString)
  | VBigInt z => negb (Z.eqb z 0)
  | VSymbol _ => true
  | VObject _ => true
  | VFunction _ => true
  end.

(** [a || b] *)
Definition logical_or (a b : JsValue) : JsValue :=
  if ToBoolean a then a else b.

(** An options object: its own enumerable properties, in the order
    [Object.keys] lists them.  Property names are unique. *)
Abbreviation JsObject := (list (string * JsValue)) (only parsing).

Definition Object_keys (o : JsObject) : list string := map fst o.

Fixpoint obj_lookup (o : JsObject) (key : string) : option JsValue :=
  match o with
  | [] => None
  | (k, v) :: o' => if String.eqb k key then Some v else obj_lookup o' key
  end.

(** [o[key]] *)
Definition obj_get (o : JsObject) (key : string) : JsValue :=
  match obj_lookup o key with Some v => v | None => VUndefined end.

Definition is_digit (c : ascii) : bool :=
  let n := nat_of_ascii c in ((48 <=? n) && (n <=? 57))%nat.

Fixpoint digits_value (acc : N) (s : string) : N :=
  match s with
  | EmptyString => acc
  | String c s' => digits_value (acc * 10 + (N_of_ascii c - 48))%N s'
  end.

Fixpoint all_chars (f : ascii -> bool) (s : string) : bool :=
  match s with
  | EmptyString => true
  | String c s' => f c && all_chars f s'
  end.

(** An array index is a canonical numeric string below 2^32 - 1: such
    property names come first in the property order of an object, in
    numeric order. *)
Definition array_index (key : string) : option N :=
  match key with
  | EmptyString => None
  | String c s' =>
      if all_chars is_digit key
         && (negb (Ascii.eqb c "0") || String.eqb s' EmptyString)
         && (String.length key <=? 10)%nat
         && (digits_value 0 key <? 4294967295)%N
      then Some (digits_value 0 key) else None
  end.

Fixpoint obj_update (o : JsObject) (key : string) (v : JsValue) : JsObject :=
  match o with
  | [] => []
  | (k, w) :: o' =>
      if String.eqb k key then (k, v) :: o' else (k, w) :: obj_update o' key v
  end.

(** A new array-index property goes before the first property that is
    not an array index or has a greater index. *)
Fixpoint obj_insert_index (o : JsObject) (n : N) (key : string) (v : JsValue) : JsObject :=
  match o with
  | [] => [(key, v)]
  | (k, w) :: o' =>
      match array_index k with
      | Some m => if (m <? n)%N then (k, w) :: obj_insert_index o' n key v
                  else (key, v) :: o
      | None => (key, v) :: o
      end
  end.

(** [acc[key] = v] on an object created by the literal [{}], for a value
    [v] that is not an object: an existing property is overwritten in
    place; the name [__proto__] reaches the inherited setter, which
    ignores such values and creates nothing; a new property is placed by
    the property order (array indices first, then creation order). *)
Definition obj_set (acc : JsObject) (key : string) (v : JsValue) : JsObject :=
  match obj_lookup acc key with
  | Some _ => obj_update acc key v
  | None =>
      if String.eqb key "__proto__" then acc
      else match array_index key with
           | Some n => obj_insert_index acc n key v
           | None => (acc ++ [(key, v)])%list
           end
  end.

(** ** Sorting and JSON *)

(** The default comparison of [Array.prototype.sort] on strings. *)
Definition str_le (s1 s2 : string) : Prop := String.leb s1 s2 = true.

Global Instance str_le_dec : RelDecision str_le.
Proof. intros s1 s2. unfold str_le. apply _. Defined.

(** [a.sort()] on an array of strings (the sorted contents). *)
Definition Array_sort (a : list string) : list string := merge_sort str_le a.

(** [a.join(sep)] *)
Definition Array_join (sep : string) (a : list string) : string :=
  String.concat sep a.

(** The double quote character. *)
Definition dquote : ascii := ascii_of_nat 34.

Definition hex_digit (n : nat) : ascii :=
  if (n <? 10)%nat then ascii_of_nat (48 + n) else ascii_of_nat (87 + n).

(** One code unit of [QuoteJSONString]. *)
Definition json_escape (c : ascii) : string :=
  let n := nat_of_ascii c in
  if Ascii.eqb c dquote then String "\" (String dquote EmptyString)
  else if Ascii.eqb c "\" then "\\"
  else if (n =? 8)%nat then "\b"
  else if (n =? 9)%nat then "\t"
  else if (n =? 10)%nat then "\n"
  else if (n =? 12)%nat then "\f"
  else if (n =? 13)%nat then "\r"
  else if (n <? 32)%nat then
    "\u00" ++ String (hex_digit (n / 16)) (String (hex_digit (n mod 16)) EmptyString)
  else String c EmptyString.

Fixpoint json_escape_all (s : string) : string :=
  match s with
  | EmptyString => EmptyString
  | String c s' => json_escape c ++ json_escape_all s'
  end.

Definition QuoteJSONString (s : string) : string :=
  String dquote (json_escape_all s ++ String dquote EmptyString).

(** [SerializeJSONProperty] on a property value: [Normal None] is
    [undefined], for which the property is left out. *)
Definition SerializeJSONProperty (v : JsValue) : Completion JsTypeError (option string) :=
  match v with
  | VUndefined => Normal None
  | VNull => Normal (Some "null")
  | VBool true => Normal (Some "true")
  | VBool false => Normal (Some "false")
  | VNumber n =>
      Normal (Some (if num_is_finite n then num_to_string n else "null"))
  | VString s => Normal (Some (QuoteJSONString s))
  | VBigInt _ => Throw bigint_not_serializable
  | VSymbol _ => Normal None
  | VObject ref =>
      match object_to_json ref with
      | inl e => Throw e
      | inr t => Normal t
      end
  | VFunction _ => Normal None
  end.

Fixpoint json_members (o : JsObject) : Completion JsTypeError (list string) :=
  match o with
  | [] => Normal []
  | (k, v) :: o' =>
      strP ← SerializeJSONProperty v;
      members ← json_members o';
      Normal (match strP with
              | Some t => (QuoteJSONString k ++ ":" ++ t) :: members
              | None => members
              end)
  end.

(** [SerializeJSONObject] *)
Definition SerializeJSONObject (o : JsObject) : Completion JsTypeError string :=
  members ← json_members o;
  Normal ("{" ++ Array_join "," members ++ "}").

(** The properties of the object literals handed to [JSON.stringify]:
    a string, or the accumulated options object. *)
Inductive Field : Type :=
| FString (s : string)
| FObject (o : JsObject).

Fixpoint json_fields (fs : list (string * Field)) : Completion JsTypeError (list string) :=
  match fs with
  | [] => Normal []
  | (k, f) :: fs' =>
      t ← match f with
          | FString s => Normal (QuoteJSONString s)
          | FObject o => SerializeJSONObject o
          end;
      members ← json_fields fs';
      Normal ((QuoteJSONString k ++ ":" ++ t) :: members)
  end.

(** [JSON.stringify({ k1: f1, ... })] *)
Definition JSON_stringify (fs : list (string * Field)) : Completion JsTypeError string :=
  members ← json_fields fs;
  Normal ("{" ++ Array_join "," members ++ "}").

End Values.

Abbreviation JsObject := (list (string * JsValue)) (only parsing).

(** ** The heap of string arrays *)

(** An array reference is an index into the heap.  References held by a
    caller always point into the heap; reading outside it gives the empty
    array. *)
Abbreviation ArrayRef := nat (only parsing).
Abbreviation Heap := (list (list string)) (only parsing).

Definition heap_read (h : Heap) (r : ArrayRef) : list string := h !!! r.

Definition heap_write (h : Heap) (r : ArrayRef) (a : list string) : Heap :=
  <[r := a]> h.

(** A new array: its reference and the extended heap. *)
Definition heap_alloc (h : Heap) (a : list string) : ArrayRef * Heap :=
  (length h, (h ++ [a])%list).

(** [a.push(x)], a mutation by whoever holds the reference. *)
Definition Array_push (h : Heap) (r : ArrayRef) (x : string) : Heap :=
  heap_write h r (heap_read h r ++ [x])%list.

(** ** The result cache *)

(** [interface CachedResult] *)
Record CachedResult : Type := mkCachedResult {
  results : ArrayRef;
  timestamp : Z
}.

(** The module state the result cache lives in: the heap and the
    [resultCache] map. *)
Record ResultStore : Type := mkResultStore {
  heap : Heap;
  resultCache : gmap string CachedResult
}.

Definition DEFAULT_TTL : Z := 5000.

(** [getCachedResults(cacheKey, ttl = DEFAULT_TTL)] at clock reading
    [now]: the returned reference ([None] is [null]) and the new state. *)
Definition getCachedResults (cacheKey : string) (ttl_arg : option Z) (now : Z)
    (st : ResultStore) : option ArrayRef * ResultStore :=
  let ttl := default DEFAULT_TTL ttl_arg in
  match resultCache st !! cacheKey with
  | None => (None, st)
  | Some cached =>
      let age := (now - timestamp cached)%Z in
      if (age >? ttl)%Z then
        (None, {| heap := heap st;
                  resultCache := delete cacheKey (resultCache st) |})
      else (Some (results cached), st)
  end.

(** [setCachedResults(cacheKey, results)] at clock reading [now]:
    [[...results]] is a new array with the elements of [results]. *)
Definition setCachedResults (cacheKey : string) (res : ArrayRef) (now : Z)
    (st : ResultStore) : ResultStore :=
  let (clone, h') := heap_alloc (heap st) (heap_read (heap st) res) in
  {| heap := h';
     resultCache :=
       <[cacheKey := {| results := clone; timestamp := now |}]> (resultCache st) |}.

Definition clearResultCache (st : ResultStore) : ResultStore :=
  {| heap := heap st; resultCache := ∅ |}.

Definition getResultCacheSize (st : ResultStore) : nat := size (resultCache st).

(** A caller's mutation of an array it holds: the cache map is not
    touched, the heap cell is. *)
Definition caller_writes (r : ArrayRef) (a : list string) (st : ResultStore) : ResultStore :=
  {| heap := heap_write (heap st) r a; resultCache := resultCache st |}.

(** What the caller reads from a returned value. *)
Definition returned_array (st : ResultStore) (ret : option ArrayRef) : option (list string) :=
  heap_read (heap st) <$> ret.

(** ** Result-cache keys *)

(** The [pattern] argument: a string, or (a reference to) an array. *)
Inductive PatternArg : Type :=
| PString (s : string)
| PArray (r : ArrayRef).

Section Keys.
Context `{Host}.

(** [createCacheKey(pattern, cwd, options)]: the key (or the error of
    [JSON.stringify]) and the heap after the call.  [pattern.sort()]
    sorts the array it is called on and returns it. *)
Definition createCacheKey (pattern : PatternArg) (cwd : string) (options : JsObject)
    (h : Heap) : Completion JsTypeError string * Heap :=
  let '(patterns, h') :=
    match pattern with
    | PArray r =>
        let sorted := Array_sort (heap_read h r) in
        (Array_join "|" sorted, heap_write h r sorted)
    | PString s => (s, h)
    end in
  let optKeys := Array_sort (Object_keys options) in
  let opts :=
    foldl (fun acc key =>
             if negb (String.eqb (typeof (obj_get options key)) "function")
                && negb (String.eqb (typeof (obj_get options key)) "object")
             then obj_set acc key (obj_get options key)
             else acc)
          [] optKeys in
  (JSON_stringify [("patterns", FString patterns); ("cwd", FString cwd);
                   ("opts", FObject opts)], h').

End Keys.

(** ** The stat cache *)

(** The type ['lstat' | 'stat']. *)
Inductive StatType : Type := Lstat | Stat.

Definition StatType_string (t : StatType) : string :=
  match t with Lstat => "lstat" | Stat => "stat" end.

(** The template [`${statType}:${path}`] *)
Definition stat_key (path : string) (statType : StatType) : string :=
  StatType_string statType ++ ":" ++ path.

Section Stats.
Context `{Host}.

(** [Map.prototype.get]: [undefined] for a key that is not there. *)
Definition Map_get (m : gmap string JsValue) (key : string) : JsValue :=
  default VUndefined (m !! key).

(** [getCachedStat(path, statType = 'lstat')] *)
Definition getCachedStat (path : string) (statType_arg : option StatType)
    (statCache : gmap string JsValue) : JsValue :=
  let key := stat_key path (default Lstat statType_arg) in
  logical_or (Map_get statCache key) VNull.

(** [setCachedStat(path, result, statType = 'lstat')] *)
Definition setCachedStat (path : string) (result : JsValue)
    (statType_arg : option StatType) (statCache : gmap string JsValue)
    : gmap string JsValue :=
  let key := stat_key path (default Lstat statType_arg) in
  <[key := result]> statCache.

Definition clearStatCache (statCache : gmap string JsValue) : gmap string JsValue := ∅.

Definition getStatCacheSize (statCache : gmap string JsValue) : nat := size statCache.

End Stats.

(** ** The pattern cache *)

(** The pattern compilation engine (the [Minimatch] class of the
    minimatch package): the constructor gives a matcher or throws. *)
Class Engine `{Host} : Type := {
  Minimatch : Type;
  EngineError : Type;
  new_Minimatch : string -> JsObject -> EngineError + Minimatch
}.

Section Patterns.
Context `{Engine}.

(** A reference to a [Minimatch] instance. *)
Abbreviation MatcherRef := nat (only parsing).

(** The module state the pattern cache lives in: the instances created
    so far, the [patternCache] map, and (for the statements only) the
    calls made to the constructor, latest first. *)
Record PatternStore : Type := mkPatternStore {
  instances : list Minimatch;
  patternCache : gmap string MatcherRef;
  constructed : list (string * JsObject)
}.

(** What [getCachedPattern] can throw: the error of [JSON.stringify], or
    the error of the constructor. *)
Inductive PatternError : Type :=
| StringifyError (e : JsTypeError)
| CompileError (e : EngineError).

(** The [serializableOpts] of [getCachedPattern]. *)
Definition serializableOpts (options : JsObject) : JsObject :=
  foldl (fun acc key => obj_set acc key (obj_get options key))
        []
        (Array_sort
           (List.filter (fun key =>
                           let val := obj_get options key in
                           negb (String.eqb (typeof val) "object")
                           && negb (String.eqb (typeof val) "function"))
                        (Object_keys options))).

(** The [cacheKey] of [getCachedPattern]. *)
Definition pattern_cacheKey (pattern : string) (options : JsObject)
    : Completion JsTypeError string :=
  JSON_stringify [("pattern", FString pattern);
                  ("options", FObject (serializableOpts options))].

(** [getCachedPattern(pattern, options)].  A stored instance is an
    object, so [!cached] holds exactly on a miss. *)
Definition getCachedPattern (pattern : string) (options : JsObject)
    (st : PatternStore) : Completion PatternError MatcherRef * PatternStore :=
  match pattern_cacheKey pattern options with
  | Throw e => (Throw (StringifyError e), st)
  | Normal cacheKey =>
      match patternCache st !! cacheKey with
      | Some cached => (Normal cached, st)
      | None =>
          match new_Minimatch pattern options with
          | inl e =>
              (Throw (CompileError e),
               {| instances := instances st;
                  patternCache := patternCache st;
                  constructed := (pattern, options) :: constructed st |})
          | inr m =>
              let cached := length (instances st) in
              (Normal cached,
               {| instances := (instances st ++ [m])%list;
                  patternCache := <[cacheKey := cached]> (patternCache st);
                  constructed := (pattern, options) :: constructed st |})
          end
      end
  end.

Definition clearPatternCache (st : PatternStore) : PatternStore :=
  {| instances := instances st; patternCache := ∅; constructed := constructed st |}.

Definition getPatternCacheSize (st : PatternStore) : nat := size (patternCache st).

(** ** The three caches together *)

(** The state of the module: its three maps (with the heap and the
    instances they refer to). *)
Record Caches : Type := mkCaches {
  patternStore : PatternStore;
  resultStore : ResultStore;
  statCache : gmap string JsValue
}.

(** [clearAllCaches()] *)
Definition clearAllCaches (c : Caches) : Caches :=
  {| patternStore := clearPatternCache (patternStore c);
     resultStore := clearResultCache (resultStore c);
     statCache := clearStatCache (statCache c) |}.

(** The object returned by [getCacheStats()]. *)
Record CacheStats : Type := mkCacheStats {
  patternCacheSize : nat;
  resultCacheSize : nat;
  statCacheSize : nat
}.

(** [getCacheStats()] *)
Definition getCacheStats (c : Caches) : CacheStats :=
  {| patternCacheSize := getPatternCacheSize (patternStore c);
     resultCacheSize := getResultCacheSize (resultStore c);
     statCacheSize := getStatCacheSize (statCache c) |}.

End Patterns.

Abbreviation MatcherRef := nat (only parsing).

(** ** Definitions for the statements *)

(** *** Strings and the grammar of simple patterns *)

Definition nonempty (s : string) : bool :=
  match s with EmptyString => false | String _ _ => true end.

Fixpoint any_char (f : ascii -> bool) (s : string) : bool :=
  match s with
  | EmptyString => false
  | String c s' => f c || any_char f s'
  end.

(** [strip_prefix p s] is what follows [p] in [s], when [s] starts with
    [p]. *)
Fixpoint strip_prefix (p s : string) : option string :=
  match p, s with
  | EmptyString, _ => Some s
  | String _ _, EmptyString => None
  | String a p', String b s' =>
      if Ascii.eqb b a then strip_prefix p' s' else None
  end.

(** An extension: one or more word characters (as a test). *)
Definition word_ext (ext : string) : bool :=
  nonempty ext && all_chars RegExp.word_char ext.

(** The state of the matcher after the rest of the input has been
    consumed. *)
Definition at_end (st : RegExp.MState) : RegExp.MState :=
  {| RegExp.pos := RegExp.pos st + String.length (RegExp.rest st);
     RegExp.rest := EmptyString;
     RegExp.cap1 := RegExp.cap1 st |}.

(** The match object for the whole of [s], with [ext] captured. *)
Definition ext_match (s ext : string) : RegExp.Match :=
  {| RegExp.index := 0; RegExp.matched := s; RegExp.group1 := Some ext |}.

Definition is_Some_b {A} (x : option A) : bool :=
  match x with Some _ => true | None => false end.

(** The grammar of the specification, in its own words. *)

(** One or more word characters. *)
Definition is_word_ext (ext : string) : Prop :=
  ext <> EmptyString /\
  forall c, In c (list_ascii_of_string ext) -> RegExp.word_char c = true.

(** Exactly [*.ext] or [**.ext]. *)
Definition star_ext_form (pattern : string) : Prop :=
  exists ext, is_word_ext ext /\ (pattern = "*." ++ ext \/ pattern = "**." ++ ext).

(** The characters [? [ ] { } ( ) + @ !]. *)
Definition special_characters : list ascii :=
  ["?"; "["; "]"; "{"; "}"; "("; ")"; "+"; "@"; "!"]%char.

Definition contains_special (pattern : string) : Prop :=
  exists c, In c (list_ascii_of_string pattern) /\ In c special_characters.

(** [s] ends with [suffix]. *)
Definition string_ends_with (s suffix : string) : Prop :=
  exists pre, s = pre ++ suffix.

(** *** Callers of the result cache and of the stat cache *)

(** [r.push(x)] by a caller that holds [r]. *)
Definition caller_pushes (r : ArrayRef) (x : string) (st : ResultStore) : ResultStore :=
  {| heap := Array_push (heap st) r x; resultCache := resultCache st |}.

(** The kind an optional argument stands for. *)
Definition stat_kind (statType_arg : option StatType) : StatType :=
  default Lstat statType_arg.

Section StatementDefinitions.
Context `{Host}.

(** A sequence of stores: path, value and kind of each. *)
Definition stat_sets (ops : list (string * JsValue * option StatType))
    (statCache : gmap string JsValue) : gmap string JsValue :=
  foldl (fun c '(path, result, statType) => setCachedStat path result statType c)
        statCache ops.

(** *** Option structures *)

(** The test of the filter in [getCachedPattern]. *)
Definition serializable (v : JsValue) : bool :=
  negb (String.eqb (typeof v) "object") && negb (String.eqb (typeof v) "function").

(** The names [getCachedPattern] keeps. *)
Definition kept_keys (o : JsObject) : list string :=
  List.filter (fun key => serializable (obj_get o key)) (Object_keys o).

(** The field [key] is absent, or its value is object-typed or
    function-typed. *)
Definition unserializable_or_absent (o : JsObject) (key : string) : Prop :=
  match obj_lookup o key with
  | Some v => typeof v = "object" \/ typeof v = "function"
  | None => True
  end.

(** Two option structures differ only in fields whose values are
    object-typed or function-typed. *)
Definition differ_only_in_unserializable (o1 o2 : JsObject) : Prop :=
  forall key,
    obj_lookup o1 key = obj_lookup o2 key \/
    (unserializable_or_absent o1 key /\ unserializable_or_absent o2 key).

(** Two option structures differ only in the ordering of their keys. *)
Definition differ_only_in_key_order (o1 o2 : JsObject) : Prop := o1 ≡ₚ o2.

(** An option structure with one more field, whose value is [null]. *)
Definition with_null_field (o_before o_after : JsObject) (f : string) : JsObject :=
  (o_before ++ (f, VNull) :: o_after)%list.

(** Two values count the same for a key: both pass the filter or both
    do not, and when they pass they have the same JSON text. *)
Definition same_in_key (v1 v2 : JsValue) : Prop :=
  serializable v1 = serializable v2 /\
  (serializable v1 = true -> SerializeJSONProperty v1 = SerializeJSONProperty v2).

(** Two objects with the same names in the same places, and values with
    the same JSON text. *)
Definition same_json_shape (acc1 acc2 : JsObject) : Prop :=
  Forall2 (fun kv1 kv2 =>
             fst kv1 = fst kv2 /\
             SerializeJSONProperty (snd kv1) = SerializeJSONProperty (snd kv2))
          acc1 acc2.

End StatementDefinitions.

(** *** Reading keys back *)

Definition hex_value (c : ascii) : option nat :=
  let n := nat_of_ascii c in
  if ((48 <=? n) && (n <=? 57))%nat then Some (n - 48)
  else if ((97 <=? n) && (n <=? 102))%nat then Some (n - 87)
  else None.

(** The code unit that the start of the body of a JSON string denotes,
    and what follows it; [None] at the closing quote and on a body that
    [QuoteJSONString] does not produce. *)
Definition json_unescape_one (s : string) : option (ascii * string) :=
  match s with
  | EmptyString => None
  | String c r =>
      if Ascii.eqb c dquote then None
      else if Ascii.eqb c "\" then
        match r with
        | EmptyString => None
        | String x r' =>
            if Ascii.eqb x dquote then Some (dquote, r')
            else if Ascii.eqb x "\" then Some ("\"%char, r')
            else if Ascii.eqb x "b" then Some (ascii_of_nat 8, r')
            else if Ascii.eqb x "t" then Some (ascii_of_nat 9, r')
            else if Ascii.eqb x "n" then Some (ascii_of_nat 10, r')
            else if Ascii.eqb x "f" then Some (ascii_of_nat 12, r')
            else if Ascii.eqb x "r" then Some (ascii_of_nat 13, r')
            else if Ascii.eqb x "u" then
              match r' with
              | String z1 (String z2 (String h1 (String h2 r''))) =>
                  if Ascii.eqb z1 "0" && Ascii.eqb z2 "0" then
                    match hex_value h1, hex_value h2 with
                    | Some d1, Some d2 => Some (ascii_of_nat (16 * d1 + d2), r'')
                    | _, _ => None
                    end
                  else None
              | _ => None
              end
            else None
        end
      else Some (c, r)
  end.

(** The string that [createCacheKey] puts under [patterns]. *)
Definition pattern_text (h : Heap) (pattern : PatternArg) : string :=
  match pattern with
  | PString s => s
  | PArray r => Array_join "|" (Array_sort (heap_read h r))
  end.

(** *** Invariants of the stores *)

(** The arrays of the result cache are in the heap, and no two keys hold
    the same array. *)
Definition results_wf (st : ResultStore) : Prop :=
  (forall k c, resultCache st !! k = Some c -> results c < length (heap st)) /\
  (forall k1 k2 c1 c2,
     resultCache st !! k1 = Some c1 -> resultCache st !! k2 = Some c2 ->
     results c1 = results c2 -> k1 = k2).

Section StoreInvariants.
Context `{Engine}.

(** Every matcher the pattern cache refers to is among the instances. *)
Definition patterns_wf (st : PatternStore) : Prop :=
  forall k r, patternCache st !! k = Some r -> r < length (instances st).

End StoreInvariants.

(** ** A concrete host and engine, for the examples *)

(** Numbers are integers, printed in decimal; every object value prints
    as the empty object. *)
Global Instance integer_host : Host := {|
  Num := Z;
  num_is_falsy := fun z => Z.eqb z 0;
  num_is_finite := fun _ => true;
  num_to_string := pretty;
  JsTypeError := unit;
  bigint_not_serializable := tt;
  object_to_json := fun _ => inr (Some "{}")
|}.

(** An engine that keeps the pattern and the options, and rejects the
    patterns longer than eight code units. *)
Global Instance small_engine : Engine := {|
  Minimatch := string * JsObject;
  EngineError := string;
  new_Minimatch := fun pattern options =>
    if (8 <? String.length pattern)%nat then inl "pattern is too long"
    else inr (pattern, options)
|}.

(** * Properties *)

(** ** The order of strings and sorting *)

Lemma string_leb_trans (s1 s2 s3 : string) :
  String.leb s1 s2 = true -> String.leb s2 s3 = true -> String.leb s1 s3 = true.
Proof.
  unfold String.leb. revert s2 s3.
  induction s1 as [|a1 s1 IH]; intros [|a2 s2] [|a3 s3]; simpl; try done.
  unfold Ascii.compare.
  destruct (N.compare_spec (N_of_ascii a1) (N_of_ascii a2)) as [E12|L12|G12];
    destruct (N.compare_spec (N_of_ascii a2) (N_of_ascii a3)) as [E23|L23|G23];
    try done.
  - rewrite E12, E23, N.compare_refl. apply IH.
  - intros _ _. rewrite E12. by apply N.compare_lt_iff in L23 as ->.
  - intros _ _. rewrite <- E23. by apply N.compare_lt_iff in L12 as ->.
  - intros _ _.
    assert (N_of_ascii a1 < N_of_ascii a3)%N as L13 by lia.
    by apply N.compare_lt_iff in L13 as ->.
Qed.

Lemma str_le_total : Total str_le.
Proof. intros s1 s2. apply String.leb_total. Qed.

Lemma str_le_trans : Transitive str_le.
Proof. intros s1 s2 s3. apply string_leb_trans. Qed.

Lemma str_le_antisymm : AntiSymm (=) str_le.
Proof. intros s1 s2. apply String.leb_antisym. Qed.

Lemma Array_sort_sorted (a : list string) : Sorted str_le (Array_sort a).
Proof. apply Sorted_merge_sort. apply str_le_total. Qed.

Lemma Array_sort_perm (a : list string) : Array_sort a ≡ₚ a.
Proof. apply merge_sort_Permutation. Qed.

(** Sorting forgets the order of the elements. *)
Lemma Array_sort_permutation_eq (a b : list string) :
  a ≡ₚ b -> Array_sort a = Array_sort b.
Proof.
  intros Hab.
  apply (@Sorted_unique _ str_le str_le_trans str_le_antisymm);
    try apply Array_sort_sorted.
  by rewrite !Array_sort_perm.
Qed.


(** ** Substrings *)

Lemma substring_all (s : string) : substring 0 (String.length s) s = s.
Proof. induction s as [|a s IH]; simpl; [done|by rewrite IH]. Qed.

Lemma substring_whole (s : string) (n : nat) :
  n = String.length s -> substring 0 n s = s.
Proof. intros ->. apply substring_all. Qed.

(** ** The regular expressions of the fast path *)

Module RegExpFacts.
Import RegExp.

(** The equations of the matcher. *)
Lemma rmatch_start fuel st k :
  rmatch fuel RAssertStart st k = if Nat.eqb (pos st) 0 then k st else None.
Proof. by destruct fuel. Qed.

Lemma rmatch_end fuel st k :
  rmatch fuel RAssertEnd st k =
    match rest st with EmptyString => k st | String _ _ => None end.
Proof. by destruct fuel. Qed.

Lemma rmatch_char fuel c st k :
  rmatch fuel (RChar c) st k =
    match rest st with
    | String a s' => if Ascii.eqb a c then k (advance st s') else None
    | EmptyString => None
    end.
Proof. by destruct fuel. Qed.

Lemma rmatch_class fuel f st k :
  rmatch fuel (RClass f) st k =
    match rest st with
    | String a s' => if f a then k (advance st s') else None
    | EmptyString => None
    end.
Proof. by destruct fuel. Qed.

Lemma rmatch_seq fuel r1 r2 st k :
  rmatch fuel (RSeq r1 r2) st k =
    rmatch fuel r1 st (fun st' => rmatch fuel r2 st' k).
Proof. by destruct fuel. Qed.

Lemma rmatch_opt fuel r st k :
  rmatch fuel (ROpt r) st k = or_else (rmatch fuel r st k) (k st).
Proof. by destruct fuel. Qed.

Lemma rmatch_group fuel r st k :
  rmatch fuel (RGroup r) st k =
    rmatch fuel r st (fun st' => k (set_capture st st')).
Proof. by destruct fuel. Qed.

Ltac rx_step :=
  first [ rewrite rmatch_seq | rewrite rmatch_start | rewrite rmatch_end
        | rewrite rmatch_char | rewrite rmatch_group | rewrite rmatch_opt
        | rewrite rmatch_class ];
  cbn [pos rest cap1 advance Nat.eqb].

(** [c+] followed by something that only succeeds at the end of the
    input: the whole rest must be in the class, and is consumed. *)
Lemma rmatch_plus_class_end (f : ascii -> bool) (k g : MState -> option MState) :
  (forall st', k st' = match rest st' with
                       | EmptyString => g st'
                       | String _ _ => None
                       end) ->
  forall (s : string) (fuel : nat) (st : MState),
    rest st = s -> (String.length s < fuel)%nat ->
    rmatch fuel (RPlus (RClass f)) st k =
      if nonempty s && all_chars f s then g (at_end st) else None.
Proof.
  intros Hk. induction s as [|a s IH]; intros fuel st Hrest Hfuel.
  - destruct fuel as [|fuel]; [simpl in Hfuel; lia|].
    simpl. by rewrite Hrest.
  - destruct fuel as [|fuel]; [simpl in Hfuel; lia|].
    simpl. rewrite Hrest. destruct (f a) eqn:Hfa; [|done]. simpl.
    rewrite (IH fuel (advance st s)); [|done|simpl in Hfuel; lia].
    rewrite Hk. simpl.
    assert (at_end (advance st s) = at_end st) as Hend.
    { unfold at_end, advance. simpl. rewrite Hrest. simpl. f_equal. lia. }
    destruct s as [|b s]; simpl.
    + unfold at_end. simpl. rewrite Hrest. simpl. unfold advance.
      f_equal. f_equal. lia.
    + destruct (f b && all_chars f s) eqn:Hall; simpl; [|done].
      rewrite Hend. by destruct (g (at_end st)).
Qed.

(** A regular expression that starts with [^] matches at index 0 only. *)
Lemma match_at_anchored (fuel : nat) (r : Regex) (i : nat) (s : string) :
  match_at fuel (RSeq RAssertStart r) (S i) s = None.
Proof. unfold match_at. by destruct fuel. Qed.

Lemma exec_from_anchored (fuel : nat) (r : Regex) (s : string) (i : nat) :
  exec_from fuel (RSeq RAssertStart r) (S i) s = None.
Proof.
  revert i. induction s as [|a s IH]; intros i; simpl;
    rewrite match_at_anchored; [done|apply IH].
Qed.

Lemma exec_anchored (r : Regex) (s : string) :
  exec (RSeq RAssertStart r) s =
    match_at (S (String.length s)) (RSeq RAssertStart r) 0 s.
Proof.
  unfold exec. destruct s as [|a s]; simpl exec_from.
  - by destruct (match_at _ _ _ _).
  - rewrite exec_from_anchored. by destruct (match_at _ _ _ _).
Qed.

Lemma strip_prefix_Some (p s ext : string) :
  strip_prefix p s = Some ext <-> s = p ++ ext.
Proof.
  revert s. induction p as [|a p IH]; intros s; simpl.
  - change (EmptyString ++ ext) with ext. split; congruence.
  - change (String a p ++ ext) with (String a (p ++ ext)).
    destruct s as [|b s]; [split; discriminate|].
    destruct (Ascii.eqb_spec b a) as [->|Hne].
    + rewrite IH. split; congruence.
    + split; [discriminate|]. intros [= ? _]. done.
Qed.

Tactic Notation "rx_literal" ident(s) ident(c) :=
  rx_step;
  destruct s as [|c s]; [done|];
  cbn [strip_prefix];
  destruct (Ascii.eqb c _); [|done].

Ltac rx_word_plus s :=
  match goal with
  | |- context [rmatch ?fuel (RPlus _) ?st ?k] =>
      rewrite (rmatch_plus_class_end word_char k
                 (fun st' => Some st')
                 ltac:(intros st'; cbv beta; by rewrite rmatch_end)
                 s fuel st eq_refl ltac:(simpl; lia))
  end.

Ltac rx_word_plus_group s :=
  rewrite rmatch_group;
  match goal with
  | |- context [rmatch ?fuel (RPlus _) ?st ?k] =>
      rewrite (rmatch_plus_class_end word_char k
                 (fun st' => Some (set_capture st st'))
                 ltac:(intros st'; cbv beta; by rewrite rmatch_end)
                 s fuel st eq_refl ltac:(simpl; lia))
  end.

Ltac rx_finish :=
  unfold ext_match; cbn [pos rest cap1 set_capture at_end advance];
  repeat f_equal; apply substring_whole; simpl; lia.

(** [/^\*\.(\w+)$/] matches exactly the strings [*.ext], and captures
    [ext]. *)
Lemma exec_simple_ext (s : string) :
  exec re_simple_ext s =
    match strip_prefix "*." s with
    | Some ext => if word_ext ext then Some (ext_match s ext) else None
    | None => None
    end.
Proof.
  unfold re_simple_ext. rewrite exec_anchored. unfold match_at.
  do 3 rx_step. rx_literal s c1. rx_step. rx_literal s c2. rx_step.
  rx_word_plus_group s. fold (word_ext s).
  destruct (word_ext s); [|done]. rx_finish.
Qed.

(** [/^\*\*\.(\w+)$/] matches exactly the strings [**.ext], and captures
    [ext]. *)
Lemma exec_recursive_ext (s : string) :
  exec re_recursive_ext s =
    match strip_prefix "**." s with
    | Some ext => if word_ext ext then Some (ext_match s ext) else None
    | None => None
    end.
Proof.
  unfold re_recursive_ext. rewrite exec_anchored. unfold match_at.
  do 3 rx_step. rx_literal s c1. rx_step. rx_literal s c2. rx_step.
  rx_literal s c3. rx_step.
  rx_word_plus_group s. fold (word_ext s).
  destruct (word_ext s); [|done]. rx_finish.
Qed.

(** [/^\*\*?\.\w+$/] matches the strings [*.ext] and [**.ext]. *)
Lemma test_star_ext (s : string) :
  test re_star_ext s =
    match strip_prefix "*." s with
    | Some ext => word_ext ext
    | None =>
        match strip_prefix "**." s with
        | Some ext => word_ext ext
        | None => false
        end
    end.
Proof.
  unfold test, re_star_ext. rewrite exec_anchored. unfold match_at.
  do 3 rx_step. rx_literal s c1. do 2 rx_step.
  destruct s as [|c2 s]; [by do 2 rx_step|].
  rx_step. rx_step. rx_step. cbn [strip_prefix].
  destruct (Ascii.eqb_spec c2 "*"%char) as [->|Hc2].
  - (* the optional star is there *)
    change (Ascii.eqb "*" ".") with false. cbn [or_else].
    rx_step. rx_step.
    destruct s as [|c3 s]; [done|]. cbn [strip_prefix or_else].
    destruct (Ascii.eqb c3 "."); [|done].
    rx_step. rx_word_plus s. fold (word_ext s).
    by destruct (word_ext s).
  - (* it is not: the match goes on at the same character *)
    cbn [or_else]. rx_step. destruct (Ascii.eqb c2 "."); [|done].
    rx_step. rx_word_plus s. fold (word_ext s).
    by destruct (word_ext s).
Qed.

(** A class alone, without anchors, finds a character of the class
    anywhere in the string. *)
Lemma exec_from_class (f : ascii -> bool) (s : string) (fuel i : nat) :
  is_Some_b (exec_from fuel (RClass f) i s) = any_char f s.
Proof.
  revert i. induction s as [|a s IH]; intros i.
  - simpl. unfold match_at. by rewrite rmatch_class.
  - simpl. unfold match_at. rewrite rmatch_class. cbn [rest].
    destruct (f a); [done|]. apply IH.
Qed.

Lemma test_glob_special (s : string) :
  test re_glob_special s = any_char glob_special_char s.
Proof. apply exec_from_class. Qed.

End RegExpFacts.

(** ** The fast path: [endsWith], [fastPathMatch], [isSimplePattern] *)

Lemma append_length (s1 s2 : string) :
  String.length (s1 ++ s2) = (String.length s1 + String.length s2)%nat.
Proof.
  induction s1 as [|a s1 IH]; [done|].
  change (String a s1 ++ s2) with (String a (s1 ++ s2)). simpl. by rewrite IH.
Qed.

Lemma substring_append_r (pre suf : string) :
  substring (String.length pre) (String.length suf) (pre ++ suf) = suf.
Proof.
  induction pre as [|a pre IH].
  - change (EmptyString ++ suf) with suf. apply substring_all.
  - change (String a pre ++ suf) with (String a (pre ++ suf)). simpl. apply IH.
Qed.

Lemma substring_split (s : string) (k : nat) :
  (k <= String.length s)%nat ->
  s = substring 0 k s ++ substring k (String.length s - k) s.
Proof.
  revert k. induction s as [|a s IH]; intros k Hk.
  - simpl in Hk. by replace k with 0%nat by lia.
  - destruct k as [|k].
    + change (substring 0 0 (String a s)) with EmptyString.
      change (EmptyString ++ ?x) with x.
      rewrite Nat.sub_0_r. by rewrite substring_all.
    + simpl in Hk. simpl substring.
      change (String a ?x ++ ?y) with (String a (x ++ y)).
      f_equal. apply IH. lia.
Qed.

(** [endsWith] is the suffix test. *)
Lemma endsWith_spec (s suffix : string) :
  endsWith s suffix = true <-> exists pre, s = pre ++ suffix.
Proof.
  unfold endsWith. split.
  - destruct (Nat.ltb_spec (String.length s) (String.length suffix)) as [|Hle];
      [done|].
    intros Heq%String.eqb_eq. set (m := String.length suffix) in *.
    exists (substring 0 (String.length s - m) s). rewrite <- Heq.
    etransitivity; [apply (substring_split s (String.length s - m)); lia|].
    do 2 f_equal. lia.
  - intros [pre ->]. rewrite append_length.
    destruct (Nat.ltb_spec (String.length pre + String.length suffix)
                (String.length suffix)) as [|_]; [lia|].
    replace (String.length pre + String.length suffix - String.length suffix)%nat
      with (String.length pre) by lia.
    rewrite substring_append_r. apply String.eqb_refl.
Qed.

Lemma all_chars_spec (f : ascii -> bool) (s : string) :
  all_chars f s = true <-> forall c, In c (list_ascii_of_string s) -> f c = true.
Proof.
  induction s as [|a s IH]; simpl.
  - split; [intros _ c []|done].
  - rewrite andb_true_iff, IH. split.
    + intros [Ha Hs] c [<-|Hc]; auto.
    + intros Hall. split; [|intros c Hc]; apply Hall; auto.
Qed.

Lemma any_char_spec (f : ascii -> bool) (s : string) :
  any_char f s = true <->
  exists c, In c (list_ascii_of_string s) /\ f c = true.
Proof.
  induction s as [|a s IH]; simpl.
  - split; [done|intros (c & [] & _)].
  - rewrite orb_true_iff, IH. split.
    + intros [Ha|(c & Hc & Hf)]; [exists a|exists c]; auto.
    + intros (c & [<-|Hc] & Hf); [by left|right; by exists c].
Qed.

Lemma glob_special_char_spec (c : ascii) :
  RegExp.glob_special_char c = true <-> In c special_characters.
Proof.
  unfold RegExp.glob_special_char. rewrite existsb_exists. split.
  - intros (x & Hx & Heq%Ascii.eqb_eq). by subst.
  - intros Hc. exists c. split; [done|apply Ascii.eqb_refl].
Qed.

Lemma word_ext_spec (ext : string) :
  word_ext ext = true <-> is_word_ext ext.
Proof.
  unfold word_ext, is_word_ext.
  rewrite andb_true_iff, all_chars_spec.
  destruct ext; simpl; intuition congruence.
Qed.

Lemma test_star_ext_spec (pattern : string) :
  RegExp.test RegExp.re_star_ext pattern = true <-> star_ext_form pattern.
Proof.
  rewrite RegExpFacts.test_star_ext. unfold star_ext_form. split.
  - destruct (strip_prefix "*." pattern) as [ext|] eqn:H1.
    + intros Hw. exists ext. rewrite <- word_ext_spec.
      apply RegExpFacts.strip_prefix_Some in H1. auto.
    + destruct (strip_prefix "**." pattern) as [ext|] eqn:H2; [|done].
      intros Hw. exists ext. rewrite <- word_ext_spec.
      apply RegExpFacts.strip_prefix_Some in H2. auto.
  - intros (ext & Hw%word_ext_spec & [->| ->]).
    + by rewrite (proj2 (RegExpFacts.strip_prefix_Some "*." _ ext) eq_refl).
    + change (strip_prefix "*." ("**." ++ ext))
        with (@None string).
      by rewrite (proj2 (RegExpFacts.strip_prefix_Some "**." _ ext) eq_refl).
Qed.

Lemma test_glob_special_spec (pattern : string) :
  RegExp.test RegExp.re_glob_special pattern = true <-> contains_special pattern.
Proof.
  rewrite RegExpFacts.test_glob_special, any_char_spec. unfold contains_special.
  by setoid_rewrite glob_special_char_spec.
Qed.

(** C8. [isSimplePattern] returns true exactly on the patterns that have
    the form [*.ext] or [**.ext], with [ext] one or more word characters,
    or that contain none of the characters [? [ ] { } ( ) + @ !]; on every
    other pattern it returns false. *)
Theorem isSimplePattern_grammar (pattern : string) :
  (isSimplePattern pattern = true <->
     star_ext_form pattern \/ ~ contains_special pattern) /\
  (isSimplePattern pattern = false <->
     ~ (star_ext_form pattern \/ ~ contains_special pattern)).
Proof.
  assert (isSimplePattern pattern = true <->
            star_ext_form pattern \/ ~ contains_special pattern) as Htrue.
  { unfold isSimplePattern.
    rewrite <- test_star_ext_spec, <- test_glob_special_spec.
    destruct (RegExp.test RegExp.re_star_ext pattern);
      destruct (RegExp.test RegExp.re_glob_special pattern); simpl;
      intuition congruence. }
  split; [done|].
  rewrite <- Htrue. by destruct (isSimplePattern pattern).
Qed.

Lemma fastPathMatch_unfold (pattern filename : string) :
  fastPathMatch pattern filename =
    let recursive :=
      match strip_prefix "**." pattern with
      | Some ext =>
          if word_ext ext
          then Some (endsWith filename ("." ++ ext)) else None
      | None => None
      end in
    match strip_prefix "*." pattern with
    | Some ext =>
        if word_ext ext
        then Some (endsWith filename ("." ++ ext)) else recursive
    | None => recursive
    end.
Proof.
  unfold fastPathMatch.
  rewrite RegExpFacts.exec_simple_ext, RegExpFacts.exec_recursive_ext.
  destruct (strip_prefix "*." pattern) as [e1|];
    [destruct (word_ext e1); [done|]|];
    (destruct (strip_prefix "**." pattern) as [e2|];
       [by destruct (word_ext e2)|done]).
Qed.

Lemma fastPathMatch_ext (ext filename : string) :
  is_word_ext ext ->
  fastPathMatch ("*." ++ ext) filename = Some (endsWith filename ("." ++ ext)) /\
  fastPathMatch ("**." ++ ext) filename = Some (endsWith filename ("." ++ ext)).
Proof.
  intros Hw%word_ext_spec. rewrite !fastPathMatch_unfold. split.
  - rewrite (proj2 (RegExpFacts.strip_prefix_Some "*." _ ext) eq_refl).
    cbv zeta. by rewrite Hw.
  - change (strip_prefix "*." ("**." ++ ext)) with (@None string).
    rewrite (proj2 (RegExpFacts.strip_prefix_Some "**." _ ext) eq_refl).
    cbv zeta. by rewrite Hw.
Qed.

Lemma fastPathMatch_other (pattern filename : string) :
  ~ star_ext_form pattern -> fastPathMatch pattern filename = None.
Proof.
  intros Hnot. rewrite fastPathMatch_unfold. cbv zeta.
  assert (forall p ext, (p = "*." \/ p = "**.") ->
            strip_prefix p pattern = Some ext ->
            word_ext ext = false) as Hno.
  { intros p ext Hp Hs%RegExpFacts.strip_prefix_Some.
    destruct (word_ext ext) eqn:Hw; [|done].
    destruct Hnot. exists ext. apply word_ext_spec in Hw.
    destruct Hp; subst; auto. }
  destruct (strip_prefix "*." pattern) as [e1|] eqn:H1;
    [rewrite (Hno "*." e1) by auto|];
    (destruct (strip_prefix "**." pattern) as [e2|] eqn:H2;
       [by rewrite (Hno "**." e2) by auto|done]).
Qed.

(** C7. [fastPathMatch] resolves two pattern shapes.  On [*.ext] and on
    [**.ext], with [ext] one or more word characters, it returns a boolean
    that is true exactly when the file name ends with [.ext].  On every
    other pattern it returns [null]; so it does on [abc], which
    [isSimplePattern] classifies as simple. *)
Theorem fastPathMatch_two_shapes (pattern filename : string) :
  (forall ext, is_word_ext ext ->
     pattern = "*." ++ ext \/ pattern = "**." ++ ext ->
     exists b : bool,
       fastPathMatch pattern filename = Some b /\
       (b = true <-> string_ends_with filename ("." ++ ext))) /\
  (~ star_ext_form pattern -> fastPathMatch pattern filename = None) /\
  (isSimplePattern "abc" = true /\ fastPathMatch "abc" filename = None).
Proof.
  split; [|split; [apply fastPathMatch_other|]].
  - intros ext Hw Hshape.
    exists (endsWith filename ("." ++ ext)). split; [|apply endsWith_spec].
    destruct (fastPathMatch_ext ext filename Hw) as [H1 H2].
    by destruct Hshape as [-> | ->].
  - split; [reflexivity|]. by rewrite fastPathMatch_unfold.
Qed.

(** The examples of the specification. *)
Example isSimplePattern_js : isSimplePattern "*.js" = true.
Proof. reflexivity. Qed.

Example fastPathMatch_js_yes : fastPathMatch "*.js" "a/b/c.js" = Some true.
Proof. reflexivity. Qed.

Example fastPathMatch_js_no : fastPathMatch "*.js" "c.ts" = Some false.
Proof. reflexivity. Qed.

Example fastPathMatch_ts_deep : fastPathMatch "**.ts" "deep/nested/f.ts" = Some true.
Proof. reflexivity. Qed.

Example isSimplePattern_braces : isSimplePattern "*.{js,ts}" = false.
Proof. reflexivity. Qed.

(** The instance of C7 at the pattern [*.js] and the file [a/b/c.js]. *)
Lemma fastPathMatch_two_shapes_witness :
  exists b : bool,
    fastPathMatch "*.js" "a/b/c.js" = Some b /\
    (b = true <-> string_ends_with "a/b/c.js" ".js").
Proof.
  apply (proj1 (fastPathMatch_two_shapes "*.js" "a/b/c.js") "js").
  - split; [done|]. intros c [<-|[<-|[]]]; reflexivity.
  - by left.
Defined.

(** ** The result cache *)

Lemma heap_alloc_read (h : Heap) (a : list string) :
  heap_read (snd (heap_alloc h a)) (fst (heap_alloc h a)) = a.
Proof. unfold heap_read, heap_alloc. simpl. by apply list_lookup_total_middle. Qed.

Lemma heap_write_other (h : Heap) (r r' : ArrayRef) (a : list string) :
  r <> r' -> heap_read (heap_write h r a) r' = heap_read h r'.
Proof.
  intros Hne. unfold heap_read, heap_write.
  by rewrite !list_lookup_total_alt, list_lookup_insert_ne.
Qed.

Lemma heap_write_same (h : Heap) (r : ArrayRef) (a : list string) :
  r < length h -> heap_read (heap_write h r a) r = a.
Proof. intros Hr. by apply list_lookup_total_insert_eq. Qed.

Lemma size_delete_present {V} (m : gmap string V) (k : string) (v : V) :
  m !! k = Some v -> S (size (delete k m)) = size m.
Proof.
  intros Hk. rewrite map_size_delete, Hk. simpl.
  assert (size m <> 0) as Hne; [|lia].
  rewrite map_size_non_empty_iff. intros Hemp. by rewrite Hemp, lookup_empty in Hk.
Qed.

Lemma getCachedResults_miss cacheKey ttl now st :
  resultCache st !! cacheKey = None ->
  getCachedResults cacheKey ttl now st = (None, st).
Proof. intros Hm. unfold getCachedResults. by rewrite Hm. Qed.

Lemma getCachedResults_expired cacheKey ttl now st cached :
  resultCache st !! cacheKey = Some cached ->
  (now - timestamp cached > default DEFAULT_TTL ttl)%Z ->
  getCachedResults cacheKey ttl now st =
    (None, {| heap := heap st; resultCache := delete cacheKey (resultCache st) |}).
Proof.
  intros Hc Hage. unfold getCachedResults. rewrite Hc.
  by destruct (Z.gtb_spec (now - timestamp cached) (default DEFAULT_TTL ttl)); [|lia].
Qed.

Lemma getCachedResults_fresh cacheKey ttl now st cached :
  resultCache st !! cacheKey = Some cached ->
  (now - timestamp cached <= default DEFAULT_TTL ttl)%Z ->
  getCachedResults cacheKey ttl now st = (Some (results cached), st).
Proof.
  intros Hc Hage. unfold getCachedResults. rewrite Hc.
  by destruct (Z.gtb_spec (now - timestamp cached) (default DEFAULT_TTL ttl)); [lia|].
Qed.

Lemma setCachedResults_lookup cacheKey res now st :
  resultCache (setCachedResults cacheKey res now st) !! cacheKey =
    Some {| results := length (heap st); timestamp := now |}.
Proof. unfold setCachedResults. simpl. apply lookup_insert_eq. Qed.

Lemma setCachedResults_stored cacheKey res now st :
  heap_read (heap (setCachedResults cacheKey res now st)) (length (heap st)) =
    heap_read (heap st) res.
Proof. apply (heap_alloc_read (heap st)). Qed.

(** C4. The time-to-live of the result cache, with lazy expiry.
    [getCachedResults(k, ttl)] returns [null] when there is no entry under
    [k]; when there is one and its age (now minus its timestamp) exceeds
    [ttl], it deletes the entry, so that [getResultCacheSize] goes down by
    one, and returns [null]; when the age is at most [ttl] it returns the
    stored results and leaves the cache as it is.  In particular, after
    [setCachedResults(k, a)] at instant [T], [getCachedResults(k, 100)]
    returns the elements of [a] at [T + 50] and [null] at [T + 150], with
    the size one less after that. *)
Theorem getCachedResults_ttl (cacheKey : string) (ttl : option Z) (now : Z)
    (st : ResultStore) :
  (resultCache st !! cacheKey = None ->
     getCachedResults cacheKey ttl now st = (None, st)) /\
  (forall cached,
     resultCache st !! cacheKey = Some cached ->
     (now - timestamp cached > default DEFAULT_TTL ttl)%Z ->
     exists st',
       getCachedResults cacheKey ttl now st = (None, st') /\
       resultCache st' !! cacheKey = None /\
       S (getResultCacheSize st') = getResultCacheSize st) /\
  (forall cached,
     resultCache st !! cacheKey = Some cached ->
     (now - timestamp cached <= default DEFAULT_TTL ttl)%Z ->
     getCachedResults cacheKey ttl now st = (Some (results cached), st)) /\
  (forall (arr : ArrayRef) (T : Z),
     let st1 := setCachedResults cacheKey arr T st in
     let '(r1, st2) := getCachedResults cacheKey (Some 100%Z) (T + 50) st1 in
     let '(r2, st3) := getCachedResults cacheKey (Some 100%Z) (T + 150) st2 in
     returned_array st2 r1 = Some (heap_read (heap st) arr) /\
     r2 = None /\
     S (getResultCacheSize st3) = getResultCacheSize st2).
Proof.
  split; [apply getCachedResults_miss|].
  split; [|split; [apply getCachedResults_fresh|]].
  - intros cached Hc Hage. eexists. split.
    + exact (getCachedResults_expired cacheKey ttl now st cached Hc Hage).
    + simpl. split; [apply lookup_delete_eq|].
      by apply size_delete_present with cached.
  - intros arr T st1.
    pose proof (setCachedResults_lookup cacheKey arr T st) as Hl. fold st1 in Hl.
    rewrite (getCachedResults_fresh _ _ _ _ _ Hl) by (simpl; lia).
    rewrite (getCachedResults_expired _ _ _ _ _ Hl) by (simpl; lia).
    simpl. split; [|split; [done|]].
    + f_equal. exact (setCachedResults_stored cacheKey arr T st).
    + apply (size_delete_present _ _ _ Hl).
Qed.

(** The cache lives in the module: a caller reaches the arrays it was
    given or has made, all of them allocated before the cache copies. *)
Lemma getCachedResults_heap cacheKey ttl now st :
  heap (snd (getCachedResults cacheKey ttl now st)) = heap st.
Proof.
  unfold getCachedResults. destruct (resultCache st !! cacheKey); [|done].
  by destruct (_ >? _)%Z.
Qed.

Lemma getCachedResults_caller_writes cacheKey ttl now st r a :
  fst (getCachedResults cacheKey ttl now (caller_writes r a st)) =
  fst (getCachedResults cacheKey ttl now st).
Proof.
  unfold getCachedResults, caller_writes. simpl.
  destruct (resultCache st !! cacheKey); [|done]. by destruct (_ >? _)%Z.
Qed.

(** The copy made by [setCachedResults]: whatever the caller then writes
    into the array it passed, [getCachedResults] returns the elements the
    array had when it was stored. *)
Lemma setCachedResults_copy_on_store cacheKey (arr : ArrayRef) (a' : list string)
    (T now : Z) ttl st :
  arr < length (heap st) ->
  let st1 := setCachedResults cacheKey arr T st in
  let st2 := caller_writes arr a' st1 in
  let '(r, st3) := getCachedResults cacheKey ttl now st2 in
  let '(r0, st3') := getCachedResults cacheKey ttl now st1 in
  r = r0 /\
  returned_array st3 r = returned_array st3' r0 /\
  (r = None \/ returned_array st3 r = Some (heap_read (heap st) arr)).
Proof.
  intros Harr st1 st2.
  pose proof (getCachedResults_caller_writes cacheKey ttl now st1 arr a') as Hfst.
  pose proof (getCachedResults_heap cacheKey ttl now st2) as Hh2.
  pose proof (getCachedResults_heap cacheKey ttl now st1) as Hh1.
  fold st2 in Hfst.
  destruct (getCachedResults cacheKey ttl now st2) as [r st3].
  destruct (getCachedResults cacheKey ttl now st1) as [r0 st3'] eqn:Hget.
  simpl in *. subst r0. split; [done|].
  unfold returned_array. rewrite Hh1, Hh2.
  assert (r = None \/ r = Some (length (heap st))) as [->| ->].
  { unfold getCachedResults, st1 in Hget.
    rewrite setCachedResults_lookup in Hget. simpl in Hget.
    destruct (_ >? _)%Z; inversion Hget; auto. }
  { by split; [|left]. }
  simpl.
  rewrite heap_write_other by lia.
  split; [done|]. right. f_equal.
  exact (setCachedResults_stored cacheKey arr T st).
Qed.

(** No copy is made on the way out: the reference returned is the one
    the cache holds, so what the caller writes through it is what the
    next read returns. *)
Lemma getCachedResults_aliases_cache cacheKey ttl now st (r : ArrayRef) st'
    (a' : list string) :
  getCachedResults cacheKey ttl now st = (Some r, st') ->
  r < length (heap st) ->
  let st'' := caller_writes r a' st' in
  fst (getCachedResults cacheKey ttl now st'') = Some r /\
  returned_array st'' (Some r) = Some a'.
Proof.
  intros Hget Hr st''.
  assert (st' = st) as ->.
  { unfold getCachedResults in Hget.
    destruct (resultCache st !! cacheKey); [|done].
    destruct (_ >? _)%Z; by inversion Hget. }
  split.
  - unfold st''. by rewrite getCachedResults_caller_writes, Hget.
  - simpl. f_equal. by apply heap_write_same.
Qed.

(** C1. The copy is made on store only.  Store the array [['x']] under
    [k], read it back, push ['y'] onto the array that was returned, and
    read again: the second read returns [['x', 'y']], the array the caller
    changed, and not the [['x']] that the first read returned. *)
Theorem getCachedResults_returns_the_stored_array :
  let st0 := {| heap := [["x"]]; resultCache := ∅ |} in
  let st1 := setCachedResults "k" 0 1000 st0 in
  let '(r1, st2) := getCachedResults "k" None 1001 st1 in
  let first_read := returned_array st2 r1 in
  let st3 := match r1 with Some r => caller_pushes r "y" st2 | None => st2 end in
  let '(r2, st4) := getCachedResults "k" None 1002 st3 in
  first_read = Some ["x"] /\
  r2 = r1 /\
  returned_array st4 r2 = Some ["x"; "y"].
Proof. vm_compute. done. Qed.

(** ** The stat cache *)

Section StatCache.
Context `{Host}.

(** The key keeps the path and the kind apart. *)
Lemma stat_key_inj (p p' : string) (k k' : StatType) :
  stat_key p k = stat_key p' k' -> p = p' /\ k = k'.
Proof. destruct k, k'; cbv [stat_key StatType_string]; intros [=]; auto. Qed.

Lemma getCachedStat_truthy path statType statCache v :
  statCache !! stat_key path (stat_kind statType) = Some v ->
  ToBoolean v = true ->
  getCachedStat path statType statCache = v.
Proof.
  intros Hl Hv. unfold getCachedStat, Map_get, logical_or.
  fold (stat_kind statType). by rewrite Hl; simpl; rewrite Hv.
Qed.

Lemma getCachedStat_falsy path statType statCache v :
  statCache !! stat_key path (stat_kind statType) = Some v ->
  ToBoolean v = false ->
  getCachedStat path statType statCache = VNull.
Proof.
  intros Hl Hv. unfold getCachedStat, Map_get, logical_or.
  fold (stat_kind statType). by rewrite Hl; simpl; rewrite Hv.
Qed.

(** Stores under other keys leave an entry as it is. *)
Lemma stat_sets_lookup ops statCache path kind :
  Forall (fun '(p', _, k') => (p', stat_kind k') <> (path, kind)) ops ->
  stat_sets ops statCache !! stat_key path kind = statCache !! stat_key path kind.
Proof.
  unfold stat_sets. revert statCache.
  induction ops as [|[[p' v'] k'] ops IH]; intros statCache Hops; [done|].
  inversion Hops as [|? ? Hne Hrest]; subst. simpl. rewrite IH by done.
  unfold setCachedStat. apply lookup_insert_ne.
  intros [-> Hk]%stat_key_inj. apply Hne. by rewrite <- Hk.
Qed.

(** C2, as the code has it.  After [setCachedStat(p, v, k)], and any
    stores for other paths or kinds, [getCachedStat(p, k)] returns exactly
    [v] (which is not [null]) when [v] is truthy; when [v] is falsy it
    returns [null]. *)
Theorem getCachedStat_after_set (path : string) (statType : option StatType)
    (v : JsValue) (statCache : gmap string JsValue)
    (ops : list (string * JsValue * option StatType)) :
  Forall (fun '(p', _, k') => (p', stat_kind k') <> (path, stat_kind statType)) ops ->
  let after := stat_sets ops (setCachedStat path v statType statCache) in
  (ToBoolean v = true ->
     getCachedStat path statType after = v /\ v <> VNull) /\
  (ToBoolean v = false -> getCachedStat path statType after = VNull).
Proof.
  intros Hops after.
  assert (after !! stat_key path (stat_kind statType) = Some v) as Hl.
  { unfold after. rewrite stat_sets_lookup by done. apply lookup_insert_eq. }
  split; intros Hv.
  - split; [by apply getCachedStat_truthy|]. by intros ->.
  - by apply getCachedStat_falsy with v.
Qed.

End StatCache.

(** C2 as stated fails: the value [false], stored for [/p] as [lstat], is
    read back as [null]. *)
Lemma getCachedStat_falsy_value_lost :
  ~ (forall (path : string) (statType : StatType) (v : JsValue)
            (statCache : gmap string JsValue),
       getCachedStat path (Some statType)
         (setCachedStat path v (Some statType) statCache) = v).
Proof.
  intros Hclaim. specialize (Hclaim "/p" Lstat (VBool false) ∅).
  vm_compute in Hclaim. discriminate Hclaim.
Qed.

(** The instance of C2 at a stat object stored for [/p], with a store for
    the other kind in between. *)
Lemma getCachedStat_after_set_witness :
  getCachedStat "/p" (Some Lstat)
    (setCachedStat "/p" VNull (Some Stat)
       (setCachedStat "/p" (VObject 7) (Some Lstat) ∅)) = VObject 7.
Proof.
  apply (getCachedStat_after_set "/p" (Some Lstat) (VObject 7) ∅
           [("/p", VNull, Some Stat)]).
  - repeat constructor. discriminate.
  - reflexivity.
Defined.

(** ** Result-cache keys *)

Lemma heap_read_write (h : Heap) (r r' : ArrayRef) (a : list string) :
  heap_read (heap_write h r a) r' =
    if decide (r = r' /\ r < length h) then a else heap_read h r'.
Proof.
  case_decide as Hd.
  - destruct Hd as [<- Hr]. by apply heap_write_same.
  - destruct (decide (r = r')) as [<-|Hne]; [|by apply heap_write_other].
    unfold heap_write. rewrite list_insert_ge; [done|]. lia.
Qed.

Section CacheKeys.
Context `{Host}.

(** The key is a function of the sorted, joined patterns. *)
Lemma createCacheKey_array (r : ArrayRef) (cwd : string) (options : JsObject) (h : Heap) :
  createCacheKey (PArray r) cwd options h =
    (fst (createCacheKey (PString (Array_join "|" (Array_sort (heap_read h r))))
            cwd options h),
     heap_write h r (Array_sort (heap_read h r))).
Proof. reflexivity. Qed.

Lemma createCacheKey_string_heap (s cwd : string) (options : JsObject) (h h' : Heap) :
  fst (createCacheKey (PString s) cwd options h) =
  fst (createCacheKey (PString s) cwd options h').
Proof. reflexivity. Qed.

Lemma createCacheKey_string_pure (s cwd : string) (options : JsObject) (h : Heap) :
  snd (createCacheKey (PString s) cwd options h) = h.
Proof. reflexivity. Qed.

Lemma createCacheKey_perm (r1 r2 : ArrayRef) (cwd : string) (options : JsObject)
    (h1 h2 : Heap) :
  heap_read h1 r1 ≡ₚ heap_read h2 r2 ->
  fst (createCacheKey (PArray r1) cwd options h1) =
  fst (createCacheKey (PArray r2) cwd options h2).
Proof.
  intros Hp. rewrite !createCacheKey_array. cbn [fst].
  rewrite (Array_sort_permutation_eq _ _ Hp).
  apply createCacheKey_string_heap.
Qed.

(** The array after the call is the array before, sorted: a later call
    reads a permutation of what the first call read. *)
Lemma createCacheKey_heap_perm (r r' : ArrayRef) (cwd : string) (options : JsObject)
    (h : Heap) :
  heap_read (snd (createCacheKey (PArray r) cwd options h)) r' ≡ₚ heap_read h r'.
Proof.
  rewrite createCacheKey_array. cbn [snd]. rewrite heap_read_write.
  case_decide as Hd; [|done]. destruct Hd as [<- _]. apply Array_sort_perm.
Qed.

(** The same inputs give the same key, call after call. *)
Lemma createCacheKey_repeatable (pattern : PatternArg) (cwd : string)
    (options : JsObject) (h : Heap) :
  fst (createCacheKey pattern cwd options
         (snd (createCacheKey pattern cwd options h))) =
  fst (createCacheKey pattern cwd options h).
Proof.
  destruct pattern as [s|r]; [done|].
  apply createCacheKey_perm, createCacheKey_heap_perm.
Qed.

(** C6. The order of a pattern array does not matter for the key: two
    arrays that are permutations of each other give equal keys, for every
    working directory and options, whether the calls start from the same
    heap or follow each other; and [createCacheKey(['b','a'], cwd, {})]
    equals [createCacheKey(['a','b'], cwd, {})]. *)
Theorem createCacheKey_pattern_order (r1 r2 : ArrayRef) (cwd : string)
    (options : JsObject) (h : Heap) :
  heap_read h r1 ≡ₚ heap_read h r2 ->
  fst (createCacheKey (PArray r1) cwd options h) =
    fst (createCacheKey (PArray r2) cwd options h) /\
  (let '(key1, h1) := createCacheKey (PArray r1) cwd options h in
   fst (createCacheKey (PArray r2) cwd options h1) = key1) /\
  (let two := [["b"; "a"]; ["a"; "b"]] in
   fst (createCacheKey (PArray 0) cwd [] two) =
   fst (createCacheKey (PArray 1) cwd [] two)).
Proof.
  intros Hp. split; [by apply createCacheKey_perm|]. split.
  - pose proof (createCacheKey_heap_perm r1 r2 cwd options h) as Hh.
    destruct (createCacheKey (PArray r1) cwd options h) as [key1 h1] eqn:Hc.
    replace key1 with (fst (createCacheKey (PArray r1) cwd options h))
      by (by rewrite Hc).
    simpl in Hh. apply createCacheKey_perm. by rewrite Hh.
  - apply createCacheKey_perm. unfold heap_read. simpl.
    apply Permutation_swap.
Qed.

End CacheKeys.

(** The instance of C6 at the arrays [['b','a']] and [['a','b']], the
    directory [/w] and the options [{ dot: true }]. *)
Lemma createCacheKey_pattern_order_witness :
  let two := [["b"; "a"]; ["a"; "b"]] in
  fst (createCacheKey (PArray 0) "/w" [("dot", VBool true)] two) =
  fst (createCacheKey (PArray 1) "/w" [("dot", VBool true)] two).
Proof.
  apply (createCacheKey_pattern_order 0 1 "/w" [("dot", VBool true)]
           [["b"; "a"]; ["a"; "b"]]).
  unfold heap_read. simpl. apply Permutation_swap.
Defined.

(** C3. [createCacheKey] sorts the array it is given, in place: called on
    the array [['b','a']], it leaves the caller's array as [['a','b']]. *)
Theorem createCacheKey_sorts_the_argument :
  let h := [["b"; "a"]] in
  heap_read h 0 = ["b"; "a"] /\
  heap_read (snd (createCacheKey (PArray 0) "/w" [] h)) 0 = ["a"; "b"].
Proof. vm_compute. done. Qed.

(** ** Pattern-cache keys *)

Section OptionObjects.
Context `{Host}.

Lemma serializable_false (v : JsValue) :
  serializable v = false <-> typeof v = "object" \/ typeof v = "function".
Proof. destruct v; cbv; intuition congruence. Qed.

Lemma obj_lookup_Some (o : JsObject) (key : string) (v : JsValue) :
  obj_lookup o key = Some v -> (key, v) ∈ o.
Proof.
  induction o as [|[k w] o IH]; simpl; [done|].
  destruct (String.eqb_spec k key) as [->|Hne].
  - intros [= ->]. apply list_elem_of_here.
  - intros Hl. apply list_elem_of_further. by apply IH.
Qed.

Lemma obj_lookup_None (o : JsObject) (key : string) :
  obj_lookup o key = None <-> key ∉ Object_keys o.
Proof.
  unfold Object_keys. induction o as [|[k w] o IH]; simpl.
  - split; [intros _; apply not_elem_of_nil|done].
  - rewrite not_elem_of_cons. destruct (String.eqb_spec k key) as [->|Hne].
    + split; [done|]. by intros [? _].
    + rewrite IH. split; [by split|by intros [_ ?]].
Qed.

Lemma obj_lookup_NoDup (o : JsObject) (key : string) (v : JsValue) :
  NoDup (Object_keys o) -> (key, v) ∈ o -> obj_lookup o key = Some v.
Proof.
  unfold Object_keys. induction o as [|[k w] o IH]; simpl.
  - intros _ Hin. by apply elem_of_nil in Hin.
  - intros [Hk Hnd]%NoDup_cons [Heq|Hin]%elem_of_cons.
    + injection Heq as -> ->. by rewrite String.eqb_refl.
    + destruct (String.eqb_spec k key) as [->|Hne]; [|by apply IH].
      destruct Hk. change key with (fst (key, v)). by apply list_elem_of_fmap_2.
Qed.

(** With unique names, the order of the properties does not matter for
    what a name maps to. *)
Lemma obj_lookup_perm (o1 o2 : JsObject) (key : string) :
  NoDup (Object_keys o1) -> o1 ≡ₚ o2 -> obj_lookup o1 key = obj_lookup o2 key.
Proof.
  intros Hnd Hp.
  assert (NoDup (Object_keys o2)) as Hnd2.
  { unfold Object_keys in *. by rewrite <- Hp. }
  destruct (obj_lookup o1 key) as [v|] eqn:H1.
  - symmetry. apply obj_lookup_NoDup; [done|].
    rewrite <- Hp. by apply obj_lookup_Some.
  - destruct (obj_lookup o2 key) as [v|] eqn:H2; [|done].
    apply obj_lookup_Some in H2. rewrite <- Hp in H2.
    apply obj_lookup_NoDup in H2; [congruence|done].
Qed.

Lemma key_order_only_unserializable (o1 o2 : JsObject) :
  NoDup (Object_keys o1) ->
  differ_only_in_key_order o1 o2 -> differ_only_in_unserializable o1 o2.
Proof. intros Hnd Hp key. left. by apply obj_lookup_perm. Qed.

Lemma elem_of_kept_keys (o : JsObject) (key : string) :
  key ∈ kept_keys o <->
  exists v, obj_lookup o key = Some v /\ serializable v = true.
Proof.
  unfold kept_keys. rewrite list_elem_of_In, filter_In, <- list_elem_of_In.
  unfold obj_get. split.
  - intros [Hin Hs]. destruct (obj_lookup o key) as [v|] eqn:Hl; [by exists v|].
    by apply obj_lookup_None in Hl.
  - intros (v & Hl & Hs). rewrite Hl. split; [|done].
    destruct (decide (key ∈ Object_keys o)) as [|Hn]; [done|].
    apply obj_lookup_None in Hn. congruence.
Qed.

Lemma kept_keys_NoDup (o : JsObject) :
  NoDup (Object_keys o) -> NoDup (kept_keys o).
Proof.
  unfold kept_keys. intros Hnd. apply NoDup_ListNoDup, List.NoDup_filter.
  by apply NoDup_ListNoDup.
Qed.

Lemma differ_only_kept (o1 o2 : JsObject) (key : string) :
  differ_only_in_unserializable o1 o2 ->
  key ∈ kept_keys o1 -> key ∈ kept_keys o2 /\ obj_get o1 key = obj_get o2 key.
Proof.
  intros Hd (v & Hl & Hs)%elem_of_kept_keys.
  destruct (Hd key) as [Heq|[Hu _]].
  - split; [|unfold obj_get; by rewrite Heq].
    apply elem_of_kept_keys. exists v. by rewrite <- Heq.
  - unfold unserializable_or_absent in Hu. rewrite Hl in Hu.
    apply serializable_false in Hu. congruence.
Qed.

Lemma differ_only_sym (o1 o2 : JsObject) :
  differ_only_in_unserializable o1 o2 -> differ_only_in_unserializable o2 o1.
Proof. intros Hd key. destruct (Hd key) as [?|[? ?]]; auto. Qed.

Lemma foldl_obj_set_ext (o1 o2 : JsObject) (keys : list string) (acc : JsObject) :
  (forall key, key ∈ keys -> obj_get o1 key = obj_get o2 key) ->
  foldl (fun acc key => obj_set acc key (obj_get o1 key)) acc keys =
  foldl (fun acc key => obj_set acc key (obj_get o2 key)) acc keys.
Proof.
  revert acc. induction keys as [|k keys IH]; intros acc Hk; [done|].
  simpl. rewrite (Hk k) by apply list_elem_of_here.
  apply IH. intros key Hin. apply Hk. by apply list_elem_of_further.
Qed.

(** The projection kept for the key is the same for two option
    structures that differ only in unserializable fields. *)
Lemma serializableOpts_agree (o1 o2 : JsObject) :
  NoDup (Object_keys o1) -> NoDup (Object_keys o2) ->
  differ_only_in_unserializable o1 o2 ->
  serializableOpts o1 = serializableOpts o2.
Proof.
  intros Hn1 Hn2 Hd. unfold serializableOpts.
  change (List.filter _ (Object_keys o1)) with (kept_keys o1).
  change (List.filter _ (Object_keys o2)) with (kept_keys o2).
  assert (kept_keys o1 ≡ₚ kept_keys o2) as Hp.
  { apply NoDup_Permutation; [by apply kept_keys_NoDup..|].
    intros key. split; intros Hin.
    - by apply (differ_only_kept o1 o2).
    - by apply (differ_only_kept o2 o1); [apply differ_only_sym|]. }
  rewrite <- (Array_sort_permutation_eq _ _ Hp).
  apply foldl_obj_set_ext. intros key Hin.
  apply (differ_only_kept o1 o2); [done|].
  by rewrite <- (Array_sort_perm (kept_keys o1)).
Qed.

End OptionObjects.

(** ** The pattern cache *)

Section PatternCache.
Context `{Engine}.

Lemma pattern_cacheKey_agree (pattern : string) (o1 o2 : JsObject) :
  NoDup (Object_keys o1) -> NoDup (Object_keys o2) ->
  differ_only_in_unserializable o1 o2 ->
  pattern_cacheKey pattern o1 = pattern_cacheKey pattern o2.
Proof.
  intros Hn1 Hn2 Hd. unfold pattern_cacheKey.
  by rewrite (serializableOpts_agree o1 o2).
Qed.

(** A hit returns the stored instance and changes nothing. *)
Lemma getCachedPattern_hit pattern options st cacheKey cached :
  pattern_cacheKey pattern options = Normal cacheKey ->
  patternCache st !! cacheKey = Some cached ->
  getCachedPattern pattern options st = (Normal cached, st).
Proof. intros Hk Hc. unfold getCachedPattern. by rewrite Hk, Hc. Qed.

(** After a call that returns, the instance returned is the one stored
    under the key. *)
Lemma getCachedPattern_stored pattern options st cached st' :
  getCachedPattern pattern options st = (Normal cached, st') ->
  exists cacheKey,
    pattern_cacheKey pattern options = Normal cacheKey /\
    patternCache st' !! cacheKey = Some cached.
Proof.
  unfold getCachedPattern.
  destruct (pattern_cacheKey pattern options) as [cacheKey|e]; [|done].
  destruct (patternCache st !! cacheKey) as [c|] eqn:Hc.
  - intros [= -> ->]. by exists cacheKey.
  - destruct (new_Minimatch pattern options) as [e|m]; [done|].
    intros [= <- <-]. exists cacheKey. split; [done|]. simpl.
    apply lookup_insert_eq.
Qed.

(** A second call whose key equals the key of a first call that returned
    hits the cache. *)
Lemma getCachedPattern_again pattern o1 o2 st cached st1 :
  pattern_cacheKey pattern o1 = pattern_cacheKey pattern o2 ->
  getCachedPattern pattern o1 st = (Normal cached, st1) ->
  getCachedPattern pattern o2 st1 = (Normal cached, st1).
Proof.
  intros Hk (cacheKey & Hk1 & Hs)%getCachedPattern_stored.
  apply getCachedPattern_hit with cacheKey; [congruence|done].
Qed.

(** What a call that returns has done, and what the next call under an
    equal key does.  The matcher returned is the entry under the derived
    key: on a hit it is the entry that was there and nothing changes; on a
    miss it is a new instance, made by the constructor from the pattern
    and the options of this call, put under the key, with the size one
    more.  The next call, with options that derive the same key, finds
    that entry: it returns the same matcher and changes nothing. *)
Lemma getCachedPattern_two_calls pattern o1 o2 st cached st1 :
  pattern_cacheKey pattern o1 = pattern_cacheKey pattern o2 ->
  getCachedPattern pattern o1 st = (Normal cached, st1) ->
  exists cacheKey,
    pattern_cacheKey pattern o1 = Normal cacheKey /\
    pattern_cacheKey pattern o2 = Normal cacheKey /\
    patternCache st1 !! cacheKey = Some cached /\
    match patternCache st !! cacheKey with
    | Some before => cached = before /\ st1 = st
    | None =>
        exists m,
          new_Minimatch pattern o1 = inr m /\
          cached = length (instances st) /\
          instances st1 = (instances st ++ [m])%list /\
          instances st1 !! cached = Some m /\
          patternCache st1 = <[cacheKey := cached]> (patternCache st) /\
          getPatternCacheSize st1 = S (getPatternCacheSize st) /\
          constructed st1 = (pattern, o1) :: constructed st
    end /\
    let '(second, st2) := getCachedPattern pattern o2 st1 in
    second = Normal cached /\
    st2 = st1 /\
    patternCache st2 !! cacheKey = Some cached /\
    patternCache st2 = patternCache st1 /\
    getPatternCacheSize st2 = getPatternCacheSize st1 /\
    constructed st2 = constructed st1.
Proof.
  intros Hk Hfirst.
  pose proof (getCachedPattern_again pattern o1 o2 st cached st1 Hk Hfirst) as Hsecond.
  destruct (getCachedPattern_stored _ _ _ _ _ Hfirst) as (cacheKey & Hk1 & Hstored).
  exists cacheKey. split; [done|]. split; [congruence|]. split; [done|].
  split; [|by rewrite Hsecond].
  unfold getCachedPattern in Hfirst. rewrite Hk1 in Hfirst.
  destruct (patternCache st !! cacheKey) as [before|] eqn:Hc.
  - by injection Hfirst as <- <-.
  - destruct (new_Minimatch pattern o1) as [e|m]; [done|].
    injection Hfirst as <- <-. exists m. simpl.
    split; [done|]. split; [done|]. split; [done|].
    split; [by apply list_lookup_middle|]. split; [done|]. split; [|done].
    unfold getPatternCacheSize. simpl. by apply map_size_insert_None.
Qed.

(** After [clearAllCaches()] the three sizes are zero. *)
Lemma clearAllCaches_stats (c : Caches) :
  getCacheStats (clearAllCaches c) =
    {| patternCacheSize := 0; resultCacheSize := 0; statCacheSize := 0 |}.
Proof.
  unfold getCacheStats, clearAllCaches, getPatternCacheSize, getResultCacheSize,
    getStatCacheSize. simpl. by rewrite !map_size_empty.
Qed.

(** C5. The key of the pattern cache is the same for two option
    structures that differ only in the ordering of their keys, or only in
    fields whose values are object-typed or function-typed.  After a call
    with the first that returned a matcher, that matcher is the entry
    stored under the derived key (the entry that was there on a hit; on a
    miss a new instance made by the constructor, stored with the size one
    more); the call with the second derives the same key and returns this
    stored instance, does not call the constructor, and leaves the
    pattern cache, and so its size, as they are: the entry is still the
    only one under the key. *)
Theorem getCachedPattern_key_invariance (pattern : string) (o1 o2 : JsObject)
    (st : PatternStore) :
  NoDup (Object_keys o1) -> NoDup (Object_keys o2) ->
  differ_only_in_key_order o1 o2 \/ differ_only_in_unserializable o1 o2 ->
  pattern_cacheKey pattern o1 = pattern_cacheKey pattern o2 /\
  (forall cached st1,
     getCachedPattern pattern o1 st = (Normal cached, st1) ->
     exists cacheKey,
       pattern_cacheKey pattern o1 = Normal cacheKey /\
       pattern_cacheKey pattern o2 = Normal cacheKey /\
       patternCache st1 !! cacheKey = Some cached /\
       match patternCache st !! cacheKey with
       | Some before => cached = before /\ st1 = st
       | None =>
           exists m,
             new_Minimatch pattern o1 = inr m /\
             cached = length (instances st) /\
             instances st1 = (instances st ++ [m])%list /\
             instances st1 !! cached = Some m /\
             patternCache st1 = <[cacheKey := cached]> (patternCache st) /\
             getPatternCacheSize st1 = S (getPatternCacheSize st) /\
             constructed st1 = (pattern, o1) :: constructed st
       end /\
       let '(second, st2) := getCachedPattern pattern o2 st1 in
       second = Normal cached /\
       st2 = st1 /\
       patternCache st2 !! cacheKey = Some cached /\
       patternCache st2 = patternCache st1 /\
       getPatternCacheSize st2 = getPatternCacheSize st1 /\
       constructed st2 = constructed st1).
Proof.
  intros Hn1 Hn2 Hd.
  assert (pattern_cacheKey pattern o1 = pattern_cacheKey pattern o2) as Hk.
  { apply pattern_cacheKey_agree; [done..|].
    destruct Hd as [Hp|Hd]; [by apply key_order_only_unserializable|done]. }
  split; [done|]. intros cached st1 Hfirst.
  exact (getCachedPattern_two_calls pattern o1 o2 st cached st1 Hk Hfirst).
Qed.

Lemma with_null_field_lookup (o_before o_after : JsObject) (f key : string) :
  f ∉ Object_keys (o_before ++ o_after)%list ->
  obj_lookup (with_null_field o_before o_after f) key =
    if String.eqb f key then Some VNull
    else obj_lookup (o_before ++ o_after)%list key.
Proof.
  unfold with_null_field, Object_keys. rewrite fmap_app, not_elem_of_app.
  intros [Hb _]. induction o_before as [|[k w] o IH]; simpl; [done|].
  apply not_elem_of_cons in Hb as [Hne Hb]. simpl in Hne.
  destruct (String.eqb_spec k key) as [->|Hk].
  - by destruct (String.eqb_spec f key) as [->|].
  - by apply IH.
Qed.

(** C10. A field whose value is [null] does not count for the key of the
    pattern cache, [null] having the type [object]: for a field name that
    the options do not have, the options extended with that field mapped
    to [null] give the same key.  After a call with the options that
    returned a matcher, that matcher is the entry stored under the derived
    key (the entry that was there on a hit; on a miss a new instance made
    by the constructor, stored with the size one more); the call with the
    extended options derives the same key and returns this stored
    instance, does not call the constructor, and the cache does not grow:
    it is left as it is. *)
Theorem getCachedPattern_null_field (pattern : string) (o_before o_after : JsObject)
    (f : string) (st : PatternStore) :
  NoDup (Object_keys (o_before ++ o_after)%list) ->
  f ∉ Object_keys (o_before ++ o_after)%list ->
  let o := (o_before ++ o_after)%list in
  let o_null := with_null_field o_before o_after f in
  pattern_cacheKey pattern o_null = pattern_cacheKey pattern o /\
  (forall cached st1,
     getCachedPattern pattern o st = (Normal cached, st1) ->
     exists cacheKey,
       pattern_cacheKey pattern o = Normal cacheKey /\
       pattern_cacheKey pattern o_null = Normal cacheKey /\
       patternCache st1 !! cacheKey = Some cached /\
       match patternCache st !! cacheKey with
       | Some before => cached = before /\ st1 = st
       | None =>
           exists m,
             new_Minimatch pattern o = inr m /\
             cached = length (instances st) /\
             instances st1 = (instances st ++ [m])%list /\
             instances st1 !! cached = Some m /\
             patternCache st1 = <[cacheKey := cached]> (patternCache st) /\
             getPatternCacheSize st1 = S (getPatternCacheSize st) /\
             constructed st1 = (pattern, o) :: constructed st
       end /\
       let '(second, st2) := getCachedPattern pattern o_null st1 in
       second = Normal cached /\
       st2 = st1 /\
       patternCache st2 !! cacheKey = Some cached /\
       patternCache st2 = patternCache st1 /\
       getPatternCacheSize st2 = getPatternCacheSize st1 /\
       constructed st2 = constructed st1).
Proof.
  intros Hnd Hf o o_null.
  assert (pattern_cacheKey pattern o = pattern_cacheKey pattern o_null) as Hk.
  { apply pattern_cacheKey_agree; [done| |].
    - unfold o_null, with_null_field, Object_keys in *.
      rewrite fmap_app in *. simpl.
      apply NoDup_app in Hnd as (Hb & Hba & Ha).
      apply not_elem_of_app in Hf as [Hfb Hfa].
      apply NoDup_app. split; [done|]. split.
      + intros x Hx [->|Hxa]%elem_of_cons; [done|]. by apply (Hba x).
      + by apply NoDup_cons.
    - intros key. unfold unserializable_or_absent, o_null.
      rewrite with_null_field_lookup by done. fold o.
      destruct (String.eqb_spec f key) as [<-|Hne]; [|by left].
      right. apply obj_lookup_None in Hf. fold o in Hf. rewrite Hf.
      split; [done|by left]. }
  split; [done|]. intros cached st1 Hfirst.
  exact (getCachedPattern_two_calls pattern o o_null st cached st1 Hk Hfirst).
Qed.

(** C9. A failed compilation leaves the pattern cache as it was.  When the
    constructor throws on a pattern and options, a call of
    [getCachedPattern] on them stores nothing; when the call reaches the
    constructor (the key is not in the cache), the caller gets the error
    of the constructor, nothing is under the key afterwards, and the next
    call with the same inputs calls the constructor again, with the same
    outcome. *)
Theorem getCachedPattern_compile_failure (pattern : string) (options : JsObject)
    (e : EngineError) (st : PatternStore) :
  new_Minimatch pattern options = inl e ->
  let '(first, st1) := getCachedPattern pattern options st in
  let '(second, st2) := getCachedPattern pattern options st1 in
  patternCache st1 = patternCache st /\
  getPatternCacheSize st1 = getPatternCacheSize st /\
  (forall cacheKey,
     pattern_cacheKey pattern options = Normal cacheKey ->
     patternCache st !! cacheKey = None ->
     first = Throw (CompileError e) /\
     constructed st1 = (pattern, options) :: constructed st /\
     patternCache st1 !! cacheKey = None /\
     second = Throw (CompileError e) /\
     constructed st2 = (pattern, options) :: (pattern, options) :: constructed st /\
     patternCache st2 = patternCache st).
Proof.
  intros He. unfold getCachedPattern at 1.
  destruct (pattern_cacheKey pattern options) as [cacheKey|err] eqn:Hk.
  - destruct (patternCache st !! cacheKey) as [c|] eqn:Hc.
    + destruct (getCachedPattern pattern options st) as [second st2].
      split; [done|]. split; [done|]. intros k' [= <-]. congruence.
    + rewrite He. unfold getCachedPattern. rewrite Hk. simpl. rewrite Hc, He.
      split; [done|]. split; [done|]. by intros k' [= <-] _.
  - destruct (getCachedPattern pattern options st) as [second st2].
    split; [done|]. split; [done|]. intros k' [=].
Qed.

End PatternCache.

(** ** Instances on the concrete host and engine *)

(** The instance of C4 at an entry stored at instant 1000 and read, with
    a time-to-live of 100, at instant 1150. *)
Lemma getCachedResults_ttl_witness :
  let st := setCachedResults "k" 0 1000 {| heap := [["x"]]; resultCache := ∅ |} in
  exists st',
    getCachedResults "k" (Some 100%Z) 1150 st = (None, st') /\
    resultCache st' !! "k" = None /\
    S (getResultCacheSize st') = getResultCacheSize st.
Proof.
  intros st.
  apply (proj1 (proj2 (getCachedResults_ttl "k" (Some 100%Z) 1150 st))
           {| results := 1; timestamp := 1000 |}).
  - reflexivity.
  - simpl. lia.
Defined.

(** The instance of C5 at two option structures that differ in the order
    of their keys, on the empty cache: the first call compiles and stores,
    the second returns the stored instance. *)
Lemma getCachedPattern_key_invariance_witness :
  let st := {| instances := []; patternCache := ∅; constructed := [] |} in
  let o1 := [("nocase", VBool false); ("dot", VBool true)] in
  let o2 := [("dot", VBool true); ("nocase", VBool false)] in
  let first_call := getCachedPattern "*.js" o1 st in
  let second_call := getCachedPattern "*.js" o2 (snd first_call) in
  fst first_call = Normal 0 /\
  fst second_call = Normal 0 /\
  snd second_call = snd first_call /\
  instances (snd second_call) = [("*.js", o1)] /\
  constructed (snd second_call) = [("*.js", o1)] /\
  getPatternCacheSize (snd first_call) = 1 /\
  getPatternCacheSize (snd second_call) = 1 /\
  exists cacheKey,
    pattern_cacheKey "*.js" o1 = Normal cacheKey /\
    pattern_cacheKey "*.js" o2 = Normal cacheKey /\
    patternCache (snd first_call) !! cacheKey = Some 0 /\
    patternCache (snd second_call) !! cacheKey = Some 0.
Proof.
  intros st o1 o2 first_call second_call.
  assert (getCachedPattern "*.js" o1 st = (Normal 0, snd first_call)) as Hfirst
    by (vm_compute; reflexivity).
  destruct (proj2 (getCachedPattern_key_invariance "*.js" o1 o2 st
                     ltac:(by apply (bool_decide_unpack _); vm_compute)
                     ltac:(by apply (bool_decide_unpack _); vm_compute)
                     (or_introl (Permutation_swap _ _ _)))
              0 (snd first_call) Hfirst)
    as (cacheKey & Hk1 & Hk2 & Hstored & Hmiss & Hsecond).
  assert (patternCache st !! cacheKey = None) as Hnone by apply lookup_empty.
  rewrite Hnone in Hmiss.
  destruct Hmiss as (m & Hm & _ & Hinst & _ & _ & Hsize & Hcons).
  injection Hm as <-.
  assert (let '(second, st2) := second_call in
          second = Normal 0 /\ st2 = snd first_call /\
          patternCache st2 !! cacheKey = Some 0) as Hagain.
  { unfold second_call.
    destruct (getCachedPattern "*.js" _ (snd first_call)) as [second st2].
    destruct Hsecond as (Hs1 & Hs2 & Hs3 & _). auto. }
  clear Hsecond. rename Hagain into Hsecond.
  clearbody second_call. destruct second_call as [second st2].
  destruct Hsecond as (-> & -> & Hstored2). cbn [fst snd].
  split; [vm_compute; reflexivity|]. split; [reflexivity|]. split; [reflexivity|].
  split; [exact Hinst|]. split; [exact Hcons|].
  assert (getPatternCacheSize (snd first_call) = 1) as Hone
    by (rewrite Hsize; vm_compute; reflexivity).
  split; [exact Hone|]. split; [exact Hone|].
  exists cacheKey. split; [exact Hk1|]. split; [exact Hk2|].
  split; exact Hstored.
Defined.

(** The instance of C10 at the options [{ dot: true }] and the field
    [fs], on the empty cache: the first call compiles and stores, the call
    with [fs: null] added returns the stored instance. *)
Lemma getCachedPattern_null_field_witness :
  let st := {| instances := []; patternCache := ∅; constructed := [] |} in
  let o1 := [("dot", VBool true)] in
  let o2 := [("dot", VBool true); ("fs", VNull)] in
  let first_call := getCachedPattern "*.js" o1 st in
  let second_call := getCachedPattern "*.js" o2 (snd first_call) in
  fst first_call = Normal 0 /\
  fst second_call = Normal 0 /\
  snd second_call = snd first_call /\
  instances (snd second_call) = [("*.js", o1)] /\
  constructed (snd second_call) = [("*.js", o1)] /\
  getPatternCacheSize (snd first_call) = 1 /\
  getPatternCacheSize (snd second_call) = 1 /\
  exists cacheKey,
    pattern_cacheKey "*.js" o1 = Normal cacheKey /\
    pattern_cacheKey "*.js" o2 = Normal cacheKey /\
    patternCache (snd first_call) !! cacheKey = Some 0 /\
    patternCache (snd second_call) !! cacheKey = Some 0.
Proof.
  intros st o1 o2 first_call second_call.
  assert (getCachedPattern "*.js" o1 st = (Normal 0, snd first_call)) as Hfirst
    by (vm_compute; reflexivity).
  destruct (proj2 (getCachedPattern_null_field "*.js" [("dot", VBool true)] [] "fs" st
                     ltac:(by apply (bool_decide_unpack _); vm_compute)
                     ltac:(by apply (bool_decide_unpack _); vm_compute))
              0 (snd first_call) Hfirst)
    as (cacheKey & Hk1 & Hk2 & Hstored & Hmiss & Hsecond).
  assert (patternCache st !! cacheKey = None) as Hnone by apply lookup_empty.
  rewrite Hnone in Hmiss.
  destruct Hmiss as (m & Hm & _ & Hinst & _ & _ & Hsize & Hcons).
  injection Hm as <-.
  assert (let '(second, st2) := second_call in
          second = Normal 0 /\ st2 = snd first_call /\
          patternCache st2 !! cacheKey = Some 0) as Hagain.
  { unfold second_call.
    destruct (getCachedPattern "*.js" _ (snd first_call)) as [second st2].
    destruct Hsecond as (Hs1 & Hs2 & Hs3 & _). auto. }
  clear Hsecond. rename Hagain into Hsecond.
  clearbody second_call. destruct second_call as [second st2].
  destruct Hsecond as (-> & -> & Hstored2). cbn [fst snd].
  split; [vm_compute; reflexivity|]. split; [reflexivity|]. split; [reflexivity|].
  split; [exact Hinst|]. split; [exact Hcons|].
  assert (getPatternCacheSize (snd first_call) = 1) as Hone
    by (rewrite Hsize; vm_compute; reflexivity).
  split; [exact Hone|]. split; [exact Hone|].
  exists cacheKey. split; [exact Hk1|]. split; [exact Hk2|].
  split; exact Hstored.
Defined.

(** The instance of C9 at a pattern that the engine rejects, on the empty
    cache. *)
Lemma getCachedPattern_compile_failure_witness :
  let st := {| instances := []; patternCache := ∅; constructed := [] |} in
  let '(first, st1) := getCachedPattern "*.typescript" [] st in
  let '(second, st2) := getCachedPattern "*.typescript" [] st1 in
  patternCache st1 = patternCache st /\
  getPatternCacheSize st1 = getPatternCacheSize st /\
  first = Throw (CompileError "pattern is too long") /\
  second = Throw (CompileError "pattern is too long") /\
  constructed st2 = [("*.typescript", []); ("*.typescript", [])].
Proof.
  intros st.
  pose proof (getCachedPattern_compile_failure "*.typescript" []
                "pattern is too long" st eq_refl) as Hfail.
  destruct (getCachedPattern "*.typescript" [] st) as [first st1] eqn:H1.
  destruct (getCachedPattern "*.typescript" [] st1) as [second st2] eqn:H2.
  destruct Hfail as (Hcache & Hsize & Hmiss).
  destruct (Hmiss _ eq_refl eq_refl) as (Hfirst & _ & _ & Hsecond & Hcalls & _).
  repeat split; assumption.
Defined.

(** * Further properties of the module *)

(** ** The fast path *)

Lemma word_char_not_special (c : ascii) :
  RegExp.word_char c = true -> RegExp.glob_special_char c = false.
Proof. destruct c as [[] [] [] [] [] [] [] []]; vm_compute; congruence. Qed.

Lemma word_ext_no_special (ext : string) :
  all_chars RegExp.word_char ext = true ->
  any_char RegExp.glob_special_char ext = false.
Proof.
  induction ext as [|c ext IH]; simpl; [done|].
  intros [Hc Hext]%andb_true_iff.
  by rewrite (word_char_not_special c Hc), IH.
Qed.

(** A pattern of the form [*.ext] or [**.ext] has no special
    character. *)
Lemma star_ext_no_special (pattern : string) :
  RegExp.test RegExp.re_star_ext pattern = true ->
  RegExp.test RegExp.re_glob_special pattern = false.
Proof.
  rewrite RegExpFacts.test_star_ext, RegExpFacts.test_glob_special.
  destruct (strip_prefix "*." pattern) as [ext|] eqn:H1.
  - apply RegExpFacts.strip_prefix_Some in H1 as ->.
    intros [_ Hw]%andb_true_iff.
    change (any_char RegExp.glob_special_char ("*." ++ ext))
      with (any_char RegExp.glob_special_char ext).
    by apply word_ext_no_special.
  - destruct (strip_prefix "**." pattern) as [ext|] eqn:H2; [|done].
    apply RegExpFacts.strip_prefix_Some in H2 as ->.
    intros [_ Hw]%andb_true_iff.
    change (any_char RegExp.glob_special_char ("**." ++ ext))
      with (any_char RegExp.glob_special_char ext).
    by apply word_ext_no_special.
Qed.

(** X1. The first test of [isSimplePattern] never decides: a pattern is
    simple exactly when it contains none of the characters
    [? [ ] { } ( ) + @ !]; the empty pattern is simple. *)
Theorem isSimplePattern_no_special (pattern : string) :
  (isSimplePattern pattern = true <-> ~ contains_special pattern) /\
  isSimplePattern EmptyString = true.
Proof.
  split; [|reflexivity].
  rewrite <- test_glob_special_spec. unfold isSimplePattern.
  destruct (RegExp.test RegExp.re_star_ext pattern) eqn:Hstar.
  - rewrite (star_ext_no_special pattern Hstar). split; [congruence|done].
  - destruct (RegExp.test RegExp.re_glob_special pattern); simpl;
      split; congruence.
Qed.

(** X2. Whatever the fast path resolves is classified as simple: when
    [fastPathMatch] returns a boolean for a pattern, [isSimplePattern]
    is true of the pattern. *)
Theorem fastPathMatch_resolved_is_simple (pattern filename : string) (b : bool) :
  fastPathMatch pattern filename = Some b -> isSimplePattern pattern = true.
Proof.
  intros Hfast. unfold isSimplePattern.
  destruct (RegExp.test RegExp.re_star_ext pattern) eqn:Hstar; [done|].
  rewrite fastPathMatch_other in Hfast; [done|].
  rewrite <- test_star_ext_spec. congruence.
Qed.

Lemma fastPathMatch_resolved_is_simple_witness :
  isSimplePattern "**.ts" = true.
Proof.
  apply (fastPathMatch_resolved_is_simple "**.ts" "deep/nested/f.ts" true).
  reflexivity.
Defined.

(** X3. The two shapes are the same test, and the test looks at the end
    of the file name only: [*.ext] and [**.ext] give the same answer on
    every file name, and the answer is true on every name that ends with
    [.ext], whatever comes before (directories, or nothing at all, as for
    the file [.ext] itself). *)
Theorem fastPathMatch_depth_agnostic (ext : string) :
  is_word_ext ext ->
  (forall filename,
     fastPathMatch ("*." ++ ext) filename = fastPathMatch ("**." ++ ext) filename) /\
  (forall before,
     fastPathMatch ("*." ++ ext) (before ++ "." ++ ext) = Some true).
Proof.
  intros Hw. split.
  - intros filename. destruct (fastPathMatch_ext ext filename Hw) as [-> ->]. done.
  - intros before. destruct (fastPathMatch_ext ext (before ++ "." ++ ext) Hw) as [-> _].
    f_equal. apply endsWith_spec. by exists before.
Qed.

Lemma fastPathMatch_depth_agnostic_witness :
  fastPathMatch "*.js" ".js" = Some true.
Proof.
  apply (proj2 (fastPathMatch_depth_agnostic "js"
                  ltac:(split; [done|]; intros c [<-|[<-|[]]]; reflexivity))
           EmptyString).
Defined.

(** ** The result cache: stores, reads and what they leave alone *)

(** X4. [setCachedResults] overwrites: after a second store under the
    same key, a read within the time-to-live of the second store returns
    a copy of the second array, however old the first store is, and the
    second store does not change the size of the cache. *)
Theorem setCachedResults_overwrites (cacheKey : string) (a1 a2 : ArrayRef)
    (T1 T2 now : Z) (ttl : option Z) (st : ResultStore) :
  (now - T2 <= default DEFAULT_TTL ttl)%Z ->
  let st1 := setCachedResults cacheKey a1 T1 st in
  let st2 := setCachedResults cacheKey a2 T2 st1 in
  let '(r, st3) := getCachedResults cacheKey ttl now st2 in
  st3 = st2 /\
  returned_array st3 r = Some (heap_read (heap st1) a2) /\
  getResultCacheSize st2 = getResultCacheSize st1.
Proof.
  intros Hage st1 st2.
  pose proof (setCachedResults_lookup cacheKey a2 T2 st1) as Hl. fold st2 in Hl.
  rewrite (getCachedResults_fresh _ _ _ _ _ Hl) by done.
  split; [done|]. split.
  - simpl. f_equal. exact (setCachedResults_stored cacheKey a2 T2 st1).
  - unfold getResultCacheSize, st2, setCachedResults. simpl.
    apply map_size_insert_Some. rewrite lookup_insert_eq. by eexists.
Qed.

Lemma setCachedResults_overwrites_witness :
  let st0 := {| heap := [["old"]; ["new"]]; resultCache := ∅ |} in
  let st2 := setCachedResults "k" 1 9000 (setCachedResults "k" 0 1000 st0) in
  returned_array st2 (fst (getCachedResults "k" (Some 100%Z) 9050 st2)) = Some ["new"].
Proof.
  intros st0 st2.
  pose proof (setCachedResults_overwrites "k" 0 1 1000 9000 9050 (Some 100%Z) st0
                ltac:(simpl; lia)) as Hover.
  cbv zeta in Hover. subst st2 st0.
  destruct (getCachedResults "k" (Some 100%Z) 9050 _) as [r st3].
  destruct Hover as (-> & Hret & _). exact Hret.
Defined.

(** X5. What a store changes: the size of the cache goes up by one when
    the key is new and stays the same when it is not; the entries of the
    other keys and every array that was in the heap, the argument
    included, are left as they were. *)
Theorem setCachedResults_effect (cacheKey : string) (arr : ArrayRef) (T : Z)
    (st : ResultStore) :
  let st' := setCachedResults cacheKey arr T st in
  getResultCacheSize st' =
    (match resultCache st !! cacheKey with
     | Some _ => getResultCacheSize st
     | None => S (getResultCacheSize st)
     end) /\
  (forall k, k <> cacheKey -> resultCache st' !! k = resultCache st !! k) /\
  (forall r, r < length (heap st) -> heap_read (heap st') r = heap_read (heap st) r).
Proof.
  intros st'. unfold st', setCachedResults, getResultCacheSize. simpl.
  split; [|split].
  - rewrite map_size_insert. by destruct (resultCache st !! cacheKey).
  - intros k Hk. by apply lookup_insert_ne.
  - intros r Hr. unfold heap_read. by apply lookup_total_app_l.
Qed.

(** X6. What a read changes: never the heap, never the entry of another
    key, and it never adds an entry; the cache after the read is
    contained in the cache before. *)
Theorem getCachedResults_frame (cacheKey : string) (ttl : option Z) (now : Z)
    (st : ResultStore) :
  let st' := snd (getCachedResults cacheKey ttl now st) in
  heap st' = heap st /\
  (forall k, k <> cacheKey -> resultCache st' !! k = resultCache st !! k) /\
  resultCache st' ⊆ resultCache st /\
  getResultCacheSize st' <= getResultCacheSize st.
Proof.
  intros st'. unfold st', getCachedResults, getResultCacheSize.
  destruct (resultCache st !! cacheKey) as [cached|] eqn:Hc; [|done].
  destruct (_ >? _)%Z; [|done]. simpl.
  split; [done|]. split; [|split].
  - intros k Hk. by apply lookup_delete_ne.
  - apply delete_subseteq.
  - rewrite map_size_delete, Hc. simpl. lia.
Qed.

(** X7. A [null] answer stays: once [getCachedResults] has returned
    [null] for a key, every later read of the key returns [null], at any
    instant and for any time-to-live (also one under which the entry
    would not have expired), and changes nothing. *)
Theorem getCachedResults_null_stays (cacheKey : string) (ttl ttl' : option Z)
    (now now' : Z) (st : ResultStore) :
  fst (getCachedResults cacheKey ttl now st) = None ->
  let st' := snd (getCachedResults cacheKey ttl now st) in
  getCachedResults cacheKey ttl' now' st' = (None, st').
Proof.
  intros Hnone st'. apply getCachedResults_miss.
  unfold st'. unfold getCachedResults in *.
  destruct (resultCache st !! cacheKey) as [cached|] eqn:Hc; [|done].
  destruct (_ >? _)%Z; [|done]. simpl. apply lookup_delete_eq.
Qed.

Lemma getCachedResults_null_stays_witness :
  let st := setCachedResults "k" 0 1000 {| heap := [["x"]]; resultCache := ∅ |} in
  let st' := snd (getCachedResults "k" (Some 100%Z) 1150 st) in
  getCachedResults "k" (Some 1000%Z) 1151 st' = (None, st').
Proof.
  intros st.
  apply (getCachedResults_null_stays "k" (Some 100%Z) (Some 1000%Z) 1150 1151 st).
  reflexivity.
Defined.

Lemma getCachedResults_Some cacheKey ttl now st (r : ArrayRef) st' :
  getCachedResults cacheKey ttl now st = (Some r, st') ->
  st' = st /\ exists c, resultCache st !! cacheKey = Some c /\ results c = r.
Proof.
  unfold getCachedResults.
  destruct (resultCache st !! cacheKey) as [c|]; [|done].
  destruct (_ >? _)%Z; [done|]. intros [= <- <-]. split; [done|]. by exists c.
Qed.

Lemma results_wf_empty (h : Heap) : results_wf {| heap := h; resultCache := ∅ |}.
Proof. split; simpl; intros *; by rewrite lookup_empty. Qed.

Lemma results_wf_set cacheKey (arr : ArrayRef) (T : Z) st :
  results_wf st -> results_wf (setCachedResults cacheKey arr T st).
Proof.
  intros [Hin Hdist]. unfold setCachedResults. split; simpl.
  - intros k c. rewrite length_app. simpl.
    destruct (decide (cacheKey = k)) as [<-|Hne].
    + rewrite lookup_insert_eq. intros [= <-]. simpl. lia.
    + rewrite lookup_insert_ne by done. intros Hk%Hin. lia.
  - intros k1 k2 c1 c2.
    destruct (decide (cacheKey = k1)) as [<-|Hne1];
      destruct (decide (cacheKey = k2)) as [<-|Hne2]; [done|..].
    + rewrite lookup_insert_eq, lookup_insert_ne by done.
      intros [= <-] Hk%Hin. simpl. lia.
    + rewrite lookup_insert_eq, lookup_insert_ne by done.
      intros Hk%Hin [= <-]. simpl. lia.
    + rewrite !lookup_insert_ne by done. apply Hdist.
Qed.

Lemma results_wf_sub (st st' : ResultStore) :
  results_wf st -> resultCache st' ⊆ resultCache st ->
  length (heap st') = length (heap st) -> results_wf st'.
Proof.
  intros [Hin Hdist] Hsub Hlen. split.
  - intros k c Hk. rewrite Hlen. apply (Hin k).
    by apply (lookup_weaken _ _ _ _ Hk).
  - intros k1 k2 c1 c2 H1 H2.
    apply Hdist; by eapply lookup_weaken.
Qed.

Lemma results_wf_get cacheKey ttl now st :
  results_wf st -> results_wf (snd (getCachedResults cacheKey ttl now st)).
Proof.
  intros Hwf. apply (results_wf_sub st); [done| |].
  - unfold getCachedResults. destruct (resultCache st !! cacheKey); [|done].
    destruct (_ >? _)%Z; [|done]. apply delete_subseteq.
  - by rewrite getCachedResults_heap.
Qed.

(** X8. The result cache keeps its arrays to itself: that every cached
    array is in the heap and that no two keys hold the same array holds
    of the empty cache and is kept by [setCachedResults],
    [getCachedResults], [clearResultCache] and by what callers write into
    arrays. *)
Theorem results_wf_invariant (st : ResultStore) :
  results_wf st ->
  (forall cacheKey arr T, results_wf (setCachedResults cacheKey arr T st)) /\
  (forall cacheKey ttl now, results_wf (snd (getCachedResults cacheKey ttl now st))) /\
  results_wf (clearResultCache st) /\
  (forall r a, results_wf (caller_writes r a st)).
Proof.
  intros Hwf. split; [|split; [|split]].
  - intros. by apply results_wf_set.
  - intros. by apply results_wf_get.
  - apply results_wf_empty.
  - intros r a. apply (results_wf_sub st); [done|done|].
    unfold caller_writes, heap_write. simpl. apply length_insert.
Qed.

Lemma results_wf_invariant_witness :
  results_wf (setCachedResults "b" 0 2
                (setCachedResults "a" 0 1 {| heap := [["x"]]; resultCache := ∅ |})).
Proof.
  apply (results_wf_invariant (setCachedResults "a" 0 1 _)).
  apply (results_wf_invariant {| heap := [["x"]]; resultCache := ∅ |}).
  apply results_wf_empty.
Defined.

(** X9. Keys do not share arrays: in a cache that keeps the invariant,
    what a caller writes into the array returned for one key does not
    change what a read of another key returns. *)
Theorem getCachedResults_keys_isolated (k1 k2 : string) (ttl1 ttl2 : option Z)
    (now1 now2 : Z) (st st1 : ResultStore) (r1 : ArrayRef) (a' : list string) :
  results_wf st -> k1 <> k2 ->
  getCachedResults k1 ttl1 now1 st = (Some r1, st1) ->
  let '(ret, st2) := getCachedResults k2 ttl2 now2 st1 in
  let '(ret', st2') := getCachedResults k2 ttl2 now2 (caller_writes r1 a' st1) in
  ret' = ret /\ returned_array st2' ret' = returned_array st2 ret.
Proof.
  intros [Hin Hdist] Hne (-> & c1 & Hc1 & Hr1)%getCachedResults_Some.
  pose proof (getCachedResults_caller_writes k2 ttl2 now2 st r1 a') as Hfst.
  pose proof (getCachedResults_heap k2 ttl2 now2 st) as Hh.
  pose proof (getCachedResults_heap k2 ttl2 now2 (caller_writes r1 a' st)) as Hh'.
  destruct (getCachedResults k2 ttl2 now2 st) as [ret st2] eqn:Hget.
  destruct (getCachedResults k2 ttl2 now2 (caller_writes r1 a' st)) as [ret' st2'].
  simpl in *. subst ret'. split; [done|].
  destruct ret as [r2|]; [|done].
  apply getCachedResults_Some in Hget as (_ & c2 & Hc2 & Hr2).
  unfold returned_array. simpl. f_equal. rewrite Hh, Hh'.
  apply heap_write_other. intros Heq. apply Hne.
  apply (Hdist k1 k2 c1 c2); congruence.
Qed.

Lemma getCachedResults_keys_isolated_witness :
  let st := setCachedResults "b" 0 2
              (setCachedResults "a" 0 1 {| heap := [["x"]]; resultCache := ∅ |}) in
  let '(ret, st2) := getCachedResults "b" None 3 st in
  let '(ret', st2') := getCachedResults "b" None 3 (caller_writes 1 ["changed"] st) in
  ret' = ret /\ returned_array st2' ret' = returned_array st2 ret.
Proof.
  intros st.
  apply (getCachedResults_keys_isolated "a" "b" None None 3 3 st st 1 ["changed"]).
  - unfold st. apply results_wf_set, results_wf_set, results_wf_empty.
  - discriminate.
  - reflexivity.
Defined.

(** ** The stat cache: isolation, answers and size *)

Section StatCacheMore.
Context `{Host}.

(** X10. Paths and kinds do not alias: a store for one path and kind
    leaves the answer for every other path or kind as it was.  In
    particular [lstat] and [stat] entries of one path are apart, and a
    colon in a path cannot make two keys meet. *)
Theorem setCachedStat_isolated (path path' : string) (statType statType' : option StatType)
    (v : JsValue) (statCache : gmap string JsValue) :
  (path', stat_kind statType') <> (path, stat_kind statType) ->
  getCachedStat path' statType' (setCachedStat path v statType statCache) =
  getCachedStat path' statType' statCache.
Proof.
  intros Hne. unfold getCachedStat, setCachedStat, Map_get.
  rewrite lookup_insert_ne; [done|].
  intros [-> Hk]%stat_key_inj. apply Hne. unfold stat_kind. by rewrite Hk.
Qed.

(** X11. [getCachedStat] answers [null] or a truthy value: never
    [undefined], [false], [0], the empty string or another falsy value,
    whatever has been stored. *)
Theorem getCachedStat_null_or_truthy (path : string) (statType : option StatType)
    (statCache : gmap string JsValue) :
  getCachedStat path statType statCache = VNull \/
  ToBoolean (getCachedStat path statType statCache) = true.
Proof.
  unfold getCachedStat, logical_or.
  destruct (ToBoolean (Map_get statCache _)) eqn:Hb; [by right|by left].
Qed.

(** X12. The size of the stat cache counts stores by key, whatever the
    value: a store under a new path and kind adds one, also when the
    value is falsy and reads back as [null]; a store under a present one
    leaves the size as it is. *)
Theorem setCachedStat_size (path : string) (statType : option StatType)
    (v : JsValue) (statCache : gmap string JsValue) :
  let after := setCachedStat path v statType statCache in
  getStatCacheSize after =
    match statCache !! stat_key path (stat_kind statType) with
    | Some _ => getStatCacheSize statCache
    | None => S (getStatCacheSize statCache)
    end /\
  0 < getStatCacheSize after /\
  (ToBoolean v = false -> getCachedStat path statType after = VNull).
Proof.
  intros after.
  assert (getStatCacheSize after =
            match statCache !! stat_key path (stat_kind statType) with
            | Some _ => getStatCacheSize statCache
            | None => S (getStatCacheSize statCache)
            end) as Hsize.
  { unfold after, getStatCacheSize, setCachedStat. fold (stat_kind statType).
    rewrite map_size_insert. by destruct (statCache !! _). }
  assert (after !! stat_key path (stat_kind statType) = Some v) as Hl.
  { unfold after, setCachedStat. apply lookup_insert_eq. }
  split; [done|]. split.
  - assert (getStatCacheSize after <> 0); [|lia].
    unfold getStatCacheSize. rewrite map_size_non_empty_iff.
    intros Hemp. by rewrite Hemp, lookup_empty in Hl.
  - intros Hv. by apply getCachedStat_falsy with v.
Qed.

End StatCacheMore.

Lemma setCachedStat_isolated_witness :
  getCachedStat "/p" (Some Stat) (setCachedStat "/p" (VObject 7) (Some Lstat) ∅) = VNull.
Proof.
  rewrite (setCachedStat_isolated "/p" "/p" (Some Lstat) (Some Stat) (VObject 7) ∅).
  - reflexivity.
  - discriminate.
Defined.

(** ** Clearing *)

Section Clearing.
Context `{Engine}.

(** X13. After [clearAllCaches()] the three sizes reported by
    [getCacheStats()] are zero, every read of the result cache and of the
    stat cache answers [null], and a call of [getCachedPattern] whose key
    can be derived goes to the constructor again; the arrays and matchers
    handed out before are still there. *)
Theorem clearAllCaches_empties (c : Caches) :
  let c' := clearAllCaches c in
  getCacheStats c' =
    {| patternCacheSize := 0; resultCacheSize := 0; statCacheSize := 0 |} /\
  (forall cacheKey ttl now,
     getCachedResults cacheKey ttl now (resultStore c') = (None, resultStore c')) /\
  (forall path statType, getCachedStat path statType (statCache c') = VNull) /\
  (forall pattern options cacheKey,
     pattern_cacheKey pattern options = Normal cacheKey ->
     constructed (snd (getCachedPattern pattern options (patternStore c'))) =
       (pattern, options) :: constructed (patternStore c)) /\
  heap (resultStore c') = heap (resultStore c) /\
  instances (patternStore c') = instances (patternStore c).
Proof.
  intros c'. split; [apply clearAllCaches_stats|].
  split; [|split; [|split; [|done]]].
  - intros. apply getCachedResults_miss. apply lookup_empty.
  - intros. unfold getCachedStat, Map_get, logical_or. simpl.
    unfold clearStatCache. by rewrite lookup_empty.
  - intros pattern options cacheKey Hk. unfold getCachedPattern.
    rewrite Hk. simpl. rewrite lookup_empty.
    by destruct (new_Minimatch pattern options).
Qed.

End Clearing.

(** ** The pattern cache: what a call keeps, and whose options count *)

Section PatternCacheMore.
Context `{Engine}.

(** X14. [getCachedPattern] only ever adds: it keeps every entry of the
    pattern cache and every instance where they were, it keeps the cache
    referring to instances that exist, and the matcher it returns is
    among the instances. *)
Theorem getCachedPattern_only_adds (pattern : string) (options : JsObject)
    (st : PatternStore) :
  patterns_wf st ->
  let '(res, st') := getCachedPattern pattern options st in
  patterns_wf st' /\
  patternCache st ⊆ patternCache st' /\
  (forall r m, instances st !! r = Some m -> instances st' !! r = Some m) /\
  (forall cached, res = Normal cached -> is_Some (instances st' !! cached)).
Proof.
  intros Hwf. unfold getCachedPattern.
  destruct (pattern_cacheKey pattern options) as [cacheKey|err].
  - destruct (patternCache st !! cacheKey) as [c|] eqn:Hc.
    + split; [done|]. split; [done|]. split; [done|].
      intros cached [= <-]. apply lookup_lt_is_Some. by apply (Hwf cacheKey).
    + destruct (new_Minimatch pattern options) as [e|m].
      * split; [done|]. split; [done|]. split; [done|]. by intros cached [=].
      * split; [|split; [|split]]; simpl.
        -- intros k r. simpl. rewrite length_app. simpl.
           destruct (decide (cacheKey = k)) as [<-|Hne].
           ++ rewrite lookup_insert_eq. intros [= <-]. lia.
           ++ rewrite lookup_insert_ne by done. intros Hk%Hwf. lia.
        -- by apply insert_subseteq.
        -- intros r m' Hr. by apply lookup_app_l_Some.
        -- intros cached [= <-]. rewrite list_lookup_middle by done. by eexists.
  - split; [done|]. split; [done|]. split; [done|]. by intros cached [=].
Qed.

(** X15. The first options win.  When two option structures derive the
    same key and the first call compiles a matcher from the first of
    them, the call with the second returns that matcher: the constructor
    is called once, with the first options, and never sees the second,
    whatever it would have made of them. *)
Theorem getCachedPattern_first_options_win (pattern : string) (o1 o2 : JsObject)
    (cacheKey : string) (m1 : Minimatch) (st : PatternStore) :
  pattern_cacheKey pattern o1 = Normal cacheKey ->
  pattern_cacheKey pattern o2 = Normal cacheKey ->
  patternCache st !! cacheKey = None ->
  new_Minimatch pattern o1 = inr m1 ->
  let '(first, st1) := getCachedPattern pattern o1 st in
  let '(second, st2) := getCachedPattern pattern o2 st1 in
  first = Normal (length (instances st)) /\
  second = first /\
  instances st2 !! length (instances st) = Some m1 /\
  constructed st2 = (pattern, o1) :: constructed st /\
  getPatternCacheSize st2 = S (getPatternCacheSize st).
Proof.
  intros Hk1 Hk2 Hmiss Hm1. unfold getCachedPattern.
  rewrite Hk1, Hmiss, Hm1, Hk2. simpl. rewrite lookup_insert_eq.
  split; [done|]. split; [done|]. split; [|split; [done|]].
  - by apply list_lookup_middle.
  - unfold getPatternCacheSize. simpl. by apply map_size_insert_None.
Qed.

End PatternCacheMore.

Lemma getCachedPattern_only_adds_witness :
  let st := {| instances := []; patternCache := ∅; constructed := [] |} in
  let '(res, st') := getCachedPattern "*.js" [("dot", VBool true)] st in
  patterns_wf st' /\
  patternCache st ⊆ patternCache st' /\
  (forall r m, instances st !! r = Some m -> instances st' !! r = Some m) /\
  (forall cached, res = Normal cached -> is_Some (instances st' !! cached)).
Proof.
  intros st.
  apply (getCachedPattern_only_adds "*.js" [("dot", VBool true)] st).
  intros k r. unfold st. simpl. by rewrite lookup_empty.
Defined.

(** The instance of X15 at two option structures that differ in an
    object-typed field: the matcher returned for the second was made from
    the first. *)
Lemma getCachedPattern_first_options_win_witness :
  let st := {| instances := []; patternCache := ∅; constructed := [] |} in
  let o1 := [("dot", VBool true); ("fs", VObject 1)] in
  let o2 := [("dot", VBool true); ("fs", VObject 2)] in
  let '(first, st1) := getCachedPattern "*.js" o1 st in
  let '(second, st2) := getCachedPattern "*.js" o2 st1 in
  first = Normal 0 /\
  second = first /\
  instances st2 !! 0 = Some ("*.js", o1) /\
  constructed st2 = [("*.js", o1)] /\
  getPatternCacheSize st2 = 1.
Proof.
  intros st o1 o2.
  exact (getCachedPattern_first_options_win "*.js" o1 o2 _ ("*.js", o1) st
           eq_refl eq_refl eq_refl eq_refl).
Defined.

(** ** Result-cache keys: the options, the join, the heap *)

Lemma foldl_cond_filter {A B} (P : B -> bool) (f : A -> B -> A) (a : A) (l : list B) :
  foldl (fun acc x => if P x then f acc x else acc) a l =
  foldl f a (List.filter P l).
Proof.
  revert a. induction l as [|x l IH]; intros a; simpl; [done|].
  destruct (P x); simpl; apply IH.
Qed.

Lemma List_filter_Permutation {A} (P : A -> bool) (l1 l2 : list A) :
  l1 ≡ₚ l2 -> List.filter P l1 ≡ₚ List.filter P l2.
Proof.
  induction 1 as [|x l1 l2 _ IH|x y l|l1 l2 l3 _ IH1 _ IH2]; simpl.
  - done.
  - destruct (P x); [by constructor|done].
  - destruct (P x), (P y); try done. apply Permutation_swap.
  - by etransitivity.
Qed.

Lemma List_filter_StronglySorted {A} (R : relation A) (P : A -> bool) (l : list A) :
  StronglySorted R l -> StronglySorted R (List.filter P l).
Proof.
  induction 1 as [|x l Hl IH Hx]; simpl; [constructor|].
  destruct (P x); [|done]. constructor; [done|].
  apply List.Forall_forall. intros y [Hy _]%filter_In.
  by apply (proj1 (List.Forall_forall _ _) Hx).
Qed.

(** Sorting and filtering commute. *)
Lemma filter_Array_sort (P : string -> bool) (l : list string) :
  List.filter P (Array_sort l) = Array_sort (List.filter P l).
Proof.
  apply (@StronglySorted_unique _ str_le str_le_antisymm).
  - apply List_filter_StronglySorted.
    apply (@Sorted_StronglySorted _ str_le str_le_trans), Array_sort_sorted.
  - apply (@Sorted_StronglySorted _ str_le str_le_trans), Array_sort_sorted.
  - rewrite (List_filter_Permutation P _ _ (Array_sort_perm l)).
    by rewrite Array_sort_perm.
Qed.

Section CacheKeysMore.
Context `{Host}.

(** [createCacheKey] sorts the names and then leaves out the
    unserializable fields; [getCachedPattern] leaves them out and then
    sorts.  The options object they serialize is the same. *)
Lemma createCacheKey_projection (pattern : PatternArg) (cwd : string)
    (options : JsObject) (h : Heap) :
  createCacheKey pattern cwd options h =
    let '(patterns, h') :=
      match pattern with
      | PArray r =>
          (Array_join "|" (Array_sort (heap_read h r)),
           heap_write h r (Array_sort (heap_read h r)))
      | PString s => (s, h)
      end in
    (JSON_stringify [("patterns", FString patterns); ("cwd", FString cwd);
                     ("opts", FObject (serializableOpts options))], h').
Proof.
  unfold createCacheKey, serializableOpts.
  rewrite (foldl_cond_filter
             (fun key => negb (String.eqb (typeof (obj_get options key)) "function")
                         && negb (String.eqb (typeof (obj_get options key)) "object"))
             (fun acc key => obj_set acc key (obj_get options key))).
  rewrite filter_Array_sort.
  rewrite (List.filter_ext _
             (fun key => negb (String.eqb (typeof (obj_get options key)) "object")
                         && negb (String.eqb (typeof (obj_get options key)) "function")))
    by (intros key; apply andb_comm).
  done.
Qed.

(** X16. The key of the result cache does not see the order of the
    option names, nor the fields whose values are object-typed or
    function-typed: two option structures that differ only in these give
    the same key (and the same effect on the heap), for every pattern and
    working directory. *)
Theorem createCacheKey_options_invariance (pattern : PatternArg) (cwd : string)
    (o1 o2 : JsObject) (h : Heap) :
  NoDup (Object_keys o1) -> NoDup (Object_keys o2) ->
  differ_only_in_key_order o1 o2 \/ differ_only_in_unserializable o1 o2 ->
  createCacheKey pattern cwd o1 h = createCacheKey pattern cwd o2 h.
Proof.
  intros Hn1 Hn2 Hd. rewrite !createCacheKey_projection.
  rewrite (serializableOpts_agree o1 o2); [done..|].
  destruct Hd as [Hp|Hd]; [by apply key_order_only_unserializable|done].
Qed.

(** X17. The join is not reversible: two pattern arrays whose sorted
    elements join to the same string have the same key, also when they
    are not permutations of each other, and so has the string itself. *)
Theorem createCacheKey_join_collision (r1 r2 : ArrayRef) (cwd : string)
    (options : JsObject) (h : Heap) :
  Array_join "|" (Array_sort (heap_read h r1)) =
    Array_join "|" (Array_sort (heap_read h r2)) ->
  fst (createCacheKey (PArray r1) cwd options h) =
    fst (createCacheKey (PArray r2) cwd options h) /\
  fst (createCacheKey (PArray r1) cwd options h) =
    fst (createCacheKey (PString (Array_join "|" (Array_sort (heap_read h r1))))
           cwd options h).
Proof.
  intros Hjoin. rewrite !createCacheKey_array. cbn [fst]. by rewrite Hjoin.
Qed.

(** X18. The only thing [createCacheKey] does to the heap is to sort the
    array it was given: the heap keeps its size, every array keeps its
    elements, every other array is untouched, and a string pattern leaves
    the heap as it is. *)
Theorem createCacheKey_heap_effect (pattern : PatternArg) (cwd : string)
    (options : JsObject) (h : Heap) :
  let h' := snd (createCacheKey pattern cwd options h) in
  length h' = length h /\
  (forall r, heap_read h' r ≡ₚ heap_read h r) /\
  (forall r, pattern <> PArray r -> heap_read h' r = heap_read h r) /\
  match pattern with
  | PArray r => r < length h -> Sorted str_le (heap_read h' r)
  | PString _ => h' = h
  end.
Proof.
  destruct pattern as [s|r0]; intros h'.
  - by unfold h'.
  - unfold h'. rewrite createCacheKey_array. cbn [snd].
    split; [apply length_insert|]. split; [|split].
    + intros r. rewrite heap_read_write. case_decide as Hd; [|done].
      destruct Hd as [<- _]. apply Array_sort_perm.
    + intros r Hr. apply heap_write_other. congruence.
    + intros Hr0. rewrite heap_write_same by done. apply Array_sort_sorted.
Qed.

End CacheKeysMore.

Lemma createCacheKey_options_invariance_witness :
  createCacheKey (PString "*.js") "/w"
    [("nocase", VBool false); ("dot", VBool true)] [] =
  createCacheKey (PString "*.js") "/w"
    [("dot", VBool true); ("nocase", VBool false)] [].
Proof.
  apply (createCacheKey_options_invariance (PString "*.js") "/w"
           [("nocase", VBool false); ("dot", VBool true)]
           [("dot", VBool true); ("nocase", VBool false)] []).
  - by apply (bool_decide_unpack _); vm_compute.
  - by apply (bool_decide_unpack _); vm_compute.
  - left. apply Permutation_swap.
Defined.

(** The instance of X17 at the arrays [['a|b']] and [['a','b']]. *)
Lemma createCacheKey_join_collision_witness :
  let h := [["a|b"]; ["a"; "b"]] in
  fst (createCacheKey (PArray 0) "/w" [] h) = fst (createCacheKey (PArray 1) "/w" [] h).
Proof.
  intros h.
  apply (createCacheKey_join_collision 0 1 "/w" [] h). reflexivity.
Defined.

(** ** Keys can be read back *)

Lemma append_assoc (s1 s2 s3 : string) : (s1 ++ s2) ++ s3 = s1 ++ (s2 ++ s3).
Proof.
  induction s1 as [|a s1 IH]; [done|].
  change (String a (((s1 ++ s2) ++ s3)) = String a (s1 ++ (s2 ++ s3))).
  by rewrite IH.
Qed.

Lemma append_inj_r (s1 s2 t : string) : s1 ++ t = s2 ++ t -> s1 = s2.
Proof.
  revert s2. induction s1 as [|a s1 IH]; intros [|b s2] Heq; [done|..].
  - apply (f_equal String.length) in Heq.
    change (String b s2 ++ t) with (String b (s2 ++ t)) in Heq.
    change (EmptyString ++ t) with t in Heq.
    simpl in Heq. rewrite append_length in Heq. lia.
  - apply (f_equal String.length) in Heq.
    change (String a s1 ++ t) with (String a (s1 ++ t)) in Heq.
    change (EmptyString ++ t) with t in Heq.
    simpl in Heq. rewrite append_length in Heq. lia.
  - change (String a (s1 ++ t) = String b (s2 ++ t)) in Heq.
    injection Heq as -> Heq. f_equal. by apply IH.
Qed.

(** Each escape reads back as the code unit it stands for. *)
Lemma json_unescape_escape (c : ascii) (rest : string) :
  json_unescape_one (json_escape c ++ rest) = Some (c, rest).
Proof. destruct c as [[] [] [] [] [] [] [] []]; reflexivity. Qed.

Lemma json_escape_all_inj (s1 s2 r1 r2 : string) :
  json_escape_all s1 ++ String dquote r1 = json_escape_all s2 ++ String dquote r2 ->
  s1 = s2 /\ r1 = r2.
Proof.
  revert s2. induction s1 as [|c1 s1 IH]; intros [|c2 s2]; simpl.
  - change (EmptyString ++ ?x) with x. by intros [= ->].
  - rewrite append_assoc. intros Heq%(f_equal json_unescape_one).
    by rewrite json_unescape_escape in Heq.
  - rewrite append_assoc. intros Heq%(f_equal json_unescape_one).
    by rewrite json_unescape_escape in Heq.
  - rewrite !append_assoc. intros Heq%(f_equal json_unescape_one).
    rewrite !json_unescape_escape in Heq. injection Heq as -> Heq.
    by destruct (IH _ Heq) as [-> ->].
Qed.

(** A quoted string ends where its closing quote is: what is quoted, and
    what follows, can be read back. *)
Lemma QuoteJSONString_inj (s1 s2 r1 r2 : string) :
  QuoteJSONString s1 ++ r1 = QuoteJSONString s2 ++ r2 -> s1 = s2 /\ r1 = r2.
Proof.
  unfold QuoteJSONString.
  change (String dquote ?x ++ ?r) with (String dquote (x ++ r)).
  rewrite !append_assoc. intros [= Heq]. by apply json_escape_all_inj.
Qed.

Section KeysReadBack.
Context `{Host}.

Lemma pattern_cacheKey_shape (pattern : string) (options : JsObject) (key : string) :
  pattern_cacheKey pattern options = Normal key ->
  exists t,
    SerializeJSONObject (serializableOpts options) = Normal t /\
    key = "{" ++ ((QuoteJSONString "pattern" ++ ":" ++ QuoteJSONString pattern) ++ ","
                  ++ (QuoteJSONString "options" ++ ":" ++ t)) ++ "}".
Proof.
  unfold pattern_cacheKey, JSON_stringify. cbn [json_fields mbind Completion_bind].
  destruct (SerializeJSONObject (serializableOpts options)) as [t|e]; [|done].
  cbn [mbind Completion_bind]. intros [= <-]. by exists t.
Qed.

Lemma createCacheKey_shape (pattern : PatternArg) (cwd : string) (options : JsObject)
    (h : Heap) (key : string) :
  fst (createCacheKey pattern cwd options h) = Normal key ->
  exists t,
    SerializeJSONObject (serializableOpts options) = Normal t /\
    key = "{" ++ ((QuoteJSONString "patterns" ++ ":"
                     ++ QuoteJSONString (pattern_text h pattern)) ++ ","
                  ++ (QuoteJSONString "cwd" ++ ":" ++ QuoteJSONString cwd) ++ ","
                  ++ (QuoteJSONString "opts" ++ ":" ++ t)) ++ "}".
Proof.
  rewrite createCacheKey_projection.
  assert (forall patterns,
            JSON_stringify [("patterns", FString patterns); ("cwd", FString cwd);
                            ("opts", FObject (serializableOpts options))] = Normal key ->
            exists t,
              SerializeJSONObject (serializableOpts options) = Normal t /\
              key = "{" ++ ((QuoteJSONString "patterns" ++ ":"
                               ++ QuoteJSONString patterns) ++ ","
                            ++ (QuoteJSONString "cwd" ++ ":" ++ QuoteJSONString cwd) ++ ","
                            ++ (QuoteJSONString "opts" ++ ":" ++ t)) ++ "}") as Hshape.
  { intros patterns. unfold JSON_stringify. cbn [json_fields mbind Completion_bind].
    destruct (SerializeJSONObject (serializableOpts options)) as [t|e]; [|done].
    cbn [mbind Completion_bind]. intros [= <-]. by exists t. }
  destruct pattern as [s|r]; cbn [fst pattern_text]; apply Hshape.
Qed.

(** X19. The key of the pattern cache tells patterns apart: two calls
    that derive the same key have the same pattern, and options that
    serialize to the same JSON text. *)
Theorem pattern_cacheKey_separates (p1 p2 : string) (o1 o2 : JsObject) (key : string) :
  pattern_cacheKey p1 o1 = Normal key ->
  pattern_cacheKey p2 o2 = Normal key ->
  p1 = p2 /\
  SerializeJSONObject (serializableOpts o1) = SerializeJSONObject (serializableOpts o2).
Proof.
  intros (t1 & Ht1 & ->)%pattern_cacheKey_shape (t2 & Ht2 & Heq)%pattern_cacheKey_shape.
  rewrite Ht1, Ht2. rewrite !append_assoc in Heq.
  do 3 apply (inj (String.append _)) in Heq.
  apply QuoteJSONString_inj in Heq as [-> Heq]. split; [done|].
  do 3 apply (inj (String.append _)) in Heq.
  by apply append_inj_r in Heq as ->.
Qed.

(** X20. The key of the result cache tells working directories and
    pattern texts apart: two calls that give the same key have the same
    working directory and the same text under [patterns] (the string, or
    the sorted elements of the array joined by [|]). *)
Theorem createCacheKey_separates (pat1 pat2 : PatternArg) (cwd1 cwd2 : string)
    (o1 o2 : JsObject) (h1 h2 : Heap) (key : string) :
  fst (createCacheKey pat1 cwd1 o1 h1) = Normal key ->
  fst (createCacheKey pat2 cwd2 o2 h2) = Normal key ->
  pattern_text h1 pat1 = pattern_text h2 pat2 /\ cwd1 = cwd2.
Proof.
  intros (t1 & Ht1 & ->)%createCacheKey_shape (t2 & Ht2 & Heq)%createCacheKey_shape.
  rewrite !append_assoc in Heq.
  do 3 apply (inj (String.append _)) in Heq.
  apply QuoteJSONString_inj in Heq as [-> Heq]. split; [done|].
  do 3 apply (inj (String.append _)) in Heq.
  by apply QuoteJSONString_inj in Heq as [-> _].
Qed.

End KeysReadBack.

Lemma pattern_cacheKey_separates_witness :
  "*.js" = "*.js" /\
  SerializeJSONObject (serializableOpts [("dot", VBool true); ("fs", VObject 1)]) =
  SerializeJSONObject (serializableOpts [("fs", VFunction 2); ("dot", VBool true)]).
Proof.
  apply (pattern_cacheKey_separates "*.js" "*.js"
           [("dot", VBool true); ("fs", VObject 1)]
           [("fs", VFunction 2); ("dot", VBool true)]
           (String "{" (QuoteJSONString "pattern" ++ ":" ++ QuoteJSONString "*.js" ++ ","
              ++ QuoteJSONString "options" ++ ":{" ++ QuoteJSONString "dot" ++ ":true}}")));
    reflexivity.
Defined.

Lemma createCacheKey_separates_witness :
  pattern_text [["b"; "a"]] (PArray 0) = pattern_text [] (PString "a|b") /\ "/w" = "/w".
Proof.
  apply (createCacheKey_separates (PArray 0) (PString "a|b") "/w" "/w" [] []
           [["b"; "a"]] []
           (String "{" (QuoteJSONString "patterns" ++ ":" ++ QuoteJSONString "a|b" ++ ","
              ++ QuoteJSONString "cwd" ++ ":" ++ QuoteJSONString "/w" ++ ","
              ++ QuoteJSONString "opts" ++ ":{}}")));
    reflexivity.
Defined.

(** ** Values that cannot be serialized *)

Section Unserializable.
Context `{Host}.

Lemma obj_update_elem (acc : JsObject) (k : string) (v w : JsValue) :
  obj_lookup acc k = Some w -> (k, v) ∈ obj_update acc k v.
Proof.
  induction acc as [|[k0 w0] acc IH]; simpl; [done|].
  destruct (String.eqb_spec k0 k) as [->|Hne].
  - intros _. apply list_elem_of_here.
  - intros Hl. apply list_elem_of_further. by apply IH.
Qed.

Lemma obj_update_other (acc : JsObject) (k k' : string) (v v' : JsValue) :
  k' <> k -> (k', v') ∈ acc -> (k', v') ∈ obj_update acc k v.
Proof.
  intros Hne. induction acc as [|[k0 w0] acc IH]; simpl; [done|].
  intros [Heq|Hin]%elem_of_cons.
  - injection Heq as <- <-. destruct (String.eqb_spec k' k); [done|].
    apply list_elem_of_here.
  - destruct (String.eqb k0 k); apply list_elem_of_further; [done|by apply IH].
Qed.

Lemma obj_insert_index_elem (acc : JsObject) (n : N) (k : string) (v : JsValue)
    (kv : string * JsValue) :
  kv = (k, v) \/ kv ∈ acc -> kv ∈ obj_insert_index acc n k v.
Proof.
  induction acc as [|[k0 w0] acc IH]; simpl.
  - intros [->|Hin]; [apply list_elem_of_here|by apply elem_of_nil in Hin].
  - intros Hin.
    assert (kv ∈ (k, v) :: (k0, w0) :: acc) as Hall.
    { destruct Hin as [->|Hin]; [apply list_elem_of_here|by apply list_elem_of_further]. }
    destruct (array_index k0) as [m|]; [|done].
    destruct (m <? n)%N; [|done].
    destruct Hin as [->|[->|Hin]%elem_of_cons].
    + apply list_elem_of_further, IH. by left.
    + apply list_elem_of_here.
    + apply list_elem_of_further, IH. by right.
Qed.

(** The property written is there afterwards, except under the name
    [__proto__]; the other properties stay. *)
Lemma obj_set_elem (acc : JsObject) (k : string) (v : JsValue) :
  k <> "__proto__" -> (k, v) ∈ obj_set acc k v.
Proof.
  intros Hk. unfold obj_set. destruct (obj_lookup acc k) as [w|] eqn:Hl.
  - by apply obj_update_elem with w.
  - destruct (String.eqb_spec k "__proto__"); [done|].
    destruct (array_index k).
    + apply obj_insert_index_elem. by left.
    + apply elem_of_app. right. apply list_elem_of_here.
Qed.

Lemma obj_set_other (acc : JsObject) (k k' : string) (v v' : JsValue) :
  k' <> k -> (k', v') ∈ acc -> (k', v') ∈ obj_set acc k v.
Proof.
  intros Hne Hin. unfold obj_set. destruct (obj_lookup acc k).
  - by apply obj_update_other.
  - destruct (String.eqb k "__proto__"); [done|].
    destruct (array_index k).
    + apply obj_insert_index_elem. by right.
    + apply elem_of_app. by left.
Qed.

Lemma obj_set_Forall (P : JsValue -> Prop) (acc : JsObject) (k : string) (v : JsValue) :
  P v -> Forall (fun kv => P (snd kv)) acc ->
  Forall (fun kv => P (snd kv)) (obj_set acc k v).
Proof.
  intros Hv Hacc. unfold obj_set. destruct (obj_lookup acc k).
  - clear -Hv Hacc. induction Hacc as [|[k0 w0] acc Hw Hacc IH]; simpl; [done|].
    destruct (String.eqb k0 k); constructor; done.
  - destruct (String.eqb k "__proto__"); [done|].
    destruct (array_index k) as [n|].
    + clear -Hv Hacc. induction Hacc as [|[k0 w0] acc Hw Hacc IH]; simpl.
      * by repeat constructor.
      * destruct (array_index k0) as [m|]; [destruct (m <? n)%N|];
          repeat (constructor; try done).
    + apply Forall_app. split; [done|]. by repeat constructor.
Qed.

(** A kept name, other than [__proto__], is in the projection with its
    value, and every value of the projection passed the filter. *)
Lemma serializableOpts_elem (options : JsObject) (key : string) :
  key ∈ kept_keys options -> key <> "__proto__" ->
  (key, obj_get options key) ∈ serializableOpts options.
Proof.
  intros Hin Hk. unfold serializableOpts.
  change (List.filter _ (Object_keys options)) with (kept_keys options).
  rewrite <- (Array_sort_perm (kept_keys options)) in Hin.
  assert (forall keys (acc : JsObject),
            (key, obj_get options key) ∈ acc \/ key ∈ keys ->
            (key, obj_get options key) ∈
              foldl (fun acc k => obj_set acc k (obj_get options k)) acc keys) as Hfold.
  { induction keys as [|k keys IH]; intros acc Hor; simpl.
    - destruct Hor as [?|Hnil]; [done|]. by apply elem_of_nil in Hnil.
    - apply IH. destruct (decide (key = k)) as [<-|Hne].
      + left. by apply obj_set_elem.
      + destruct Hor as [Hacc|[?|Hkeys]%elem_of_cons]; [|done|by right].
        left. by apply obj_set_other. }
  apply Hfold. by right.
Qed.

Lemma serializableOpts_serializable (options : JsObject) :
  Forall (fun kv => serializable (snd kv) = true) (serializableOpts options).
Proof.
  unfold serializableOpts.
  change (List.filter _ (Object_keys options)) with (kept_keys options).
  assert (forall keys (acc : JsObject),
            Forall (fun k => k ∈ kept_keys options) keys ->
            Forall (fun kv => serializable (snd kv) = true) acc ->
            Forall (fun kv => serializable (snd kv) = true)
              (foldl (fun acc k => obj_set acc k (obj_get options k)) acc keys)) as Hfold.
  { induction keys as [|k keys IH]; intros acc Hkeys Hacc; simpl; [done|].
    inversion Hkeys as [|? ? Hk Hrest]; subst. apply IH; [done|].
    apply (obj_set_Forall (fun v => serializable v = true)); [|done].
    apply elem_of_kept_keys in Hk as (v & Hl & Hs). unfold obj_get. by rewrite Hl. }
  apply Hfold; [|constructor].
  apply Forall_forall. intros k Hk. by rewrite <- (Array_sort_perm (kept_keys options)).
Qed.

(** Serializing an object whose values passed the filter can only fail on
    a BigInt, and does fail when there is one. *)
Lemma json_members_bigint (acc : JsObject) (key : string) (z : Z) :
  Forall (fun kv => serializable (snd kv) = true) acc ->
  (key, VBigInt z) ∈ acc ->
  json_members acc = Throw bigint_not_serializable.
Proof.
  induction 1 as [|[k v] acc Hv Hacc IH]; intros Hin; [by apply elem_of_nil in Hin|].
  simpl in *. apply elem_of_cons in Hin as [Heq|Hin].
  - by injection Heq as <- <-.
  - destruct v as [| |[]| | | | | |]; try done;
      cbn [SerializeJSONProperty mbind Completion_bind]; by rewrite IH.
Qed.

Lemma SerializeJSONObject_bigint (options : JsObject) (f : string) (z : Z) :
  obj_lookup options f = Some (VBigInt z) -> f <> "__proto__" ->
  SerializeJSONObject (serializableOpts options) = Throw bigint_not_serializable.
Proof.
  intros Hl Hf. unfold SerializeJSONObject.
  rewrite (json_members_bigint _ f z); [done|apply serializableOpts_serializable|].
  replace (VBigInt z) with (obj_get options f) by (unfold obj_get; by rewrite Hl).
  apply serializableOpts_elem; [|done].
  apply elem_of_kept_keys. by exists (VBigInt z).
Qed.

(** X21. A BigInt among the options makes both key derivations throw
    the error of [JSON.stringify]: [createCacheKey] throws, and
    [getCachedPattern] throws before it looks into the cache, so that the
    constructor is not called and the cache is left as it was. *)
Theorem bigint_option_throws `{!Engine} (options : JsObject) (f : string) (z : Z)
    (pattern : string) (st : PatternStore)
    (pat : PatternArg) (cwd : string) (h : Heap) :
  obj_lookup options f = Some (VBigInt z) -> f <> "__proto__" ->
  getCachedPattern pattern options st =
    (Throw (StringifyError bigint_not_serializable), st) /\
  fst (createCacheKey pat cwd options h) = Throw bigint_not_serializable.
Proof.
  intros Hl Hf.
  pose proof (SerializeJSONObject_bigint options f z Hl Hf) as Hthrow. split.
  - unfold getCachedPattern, pattern_cacheKey, JSON_stringify.
    cbn [json_fields mbind Completion_bind]. by rewrite Hthrow.
  - rewrite createCacheKey_projection. unfold JSON_stringify.
    destruct pat; cbn [fst json_fields mbind Completion_bind]; by rewrite Hthrow.
Qed.

End Unserializable.

Lemma bigint_option_throws_witness :
  let st := {| instances := []; patternCache := ∅; constructed := [] |} in
  getCachedPattern "*.js" [("dot", VBool true); ("depth", VBigInt 3)] st =
    (Throw (StringifyError tt), st) /\
  fst (createCacheKey (PString "*.js") "/w" [("dot", VBool true); ("depth", VBigInt 3)] []) =
    Throw tt.
Proof.
  intros st.
  apply (bigint_option_throws [("dot", VBool true); ("depth", VBigInt 3)] "depth" 3
           "*.js" st (PString "*.js") "/w" []).
  - reflexivity.
  - discriminate.
Defined.

(** ** More on reads of the result cache *)

(** X22. A longer time-to-live, or an earlier clock, never turns a hit
    into a miss: when a read returns an array, the read with a
    time-to-live at least as long, at an instant no later, returns the
    same array and changes nothing. *)
Theorem getCachedResults_monotone (cacheKey : string) (ttl ttl' : option Z)
    (now now' : Z) (st st' : ResultStore) (r : ArrayRef) :
  getCachedResults cacheKey ttl now st = (Some r, st') ->
  (default DEFAULT_TTL ttl <= default DEFAULT_TTL ttl')%Z ->
  (now' <= now)%Z ->
  getCachedResults cacheKey ttl' now' st = (Some r, st).
Proof.
  unfold getCachedResults.
  destruct (resultCache st !! cacheKey) as [c|]; [|done].
  destruct (Z.gtb_spec (now - timestamp c) (default DEFAULT_TTL ttl)); [done|].
  intros [= <- <-] Httl Hnow.
  destruct (Z.gtb_spec (now' - timestamp c) (default DEFAULT_TTL ttl')); [|done].
  exfalso. generalize dependent (default DEFAULT_TTL ttl').
  generalize dependent (default DEFAULT_TTL ttl). intros. lia.
Qed.

Lemma getCachedResults_monotone_witness :
  let st := setCachedResults "k" 0 1000 {| heap := [["x"]]; resultCache := ∅ |} in
  getCachedResults "k" None 1050 st = (Some 1, st).
Proof.
  intros st.
  apply (getCachedResults_monotone "k" (Some 100%Z) None 1100 1050 st st 1).
  - reflexivity.
  - unfold DEFAULT_TTL. simpl. lia.
  - lia.
Defined.

(** X23. A store under one key does not change what a read of another
    key returns: in a cache that keeps the invariant, the read returns
    the same array, with the same elements, before and after the
    store. *)
Theorem setCachedResults_other_key (k1 k2 : string) (arr : ArrayRef) (T now : Z)
    (ttl : option Z) (st : ResultStore) :
  results_wf st -> k1 <> k2 ->
  let '(ret, st1) := getCachedResults k2 ttl now st in
  let '(ret', st1') := getCachedResults k2 ttl now (setCachedResults k1 arr T st) in
  ret' = ret /\ returned_array st1' ret' = returned_array st1 ret.
Proof.
  intros [Hin _] Hne.
  pose proof (getCachedResults_heap k2 ttl now st) as Hh.
  pose proof (getCachedResults_heap k2 ttl now (setCachedResults k1 arr T st)) as Hh'.
  unfold getCachedResults in *. unfold setCachedResults in *. simpl in *.
  rewrite lookup_insert_ne by done.
  destruct (resultCache st !! k2) as [c|] eqn:Hc; [|done].
  destruct (_ >? _)%Z; [done|]. split; [done|].
  unfold returned_array. simpl. f_equal.
  unfold heap_read. apply lookup_total_app_l. by apply (Hin k2).
Qed.

Lemma setCachedResults_other_key_witness :
  let st := setCachedResults "a" 0 1 {| heap := [["x"]]; resultCache := ∅ |} in
  let '(ret, st1) := getCachedResults "a" None 3 st in
  let '(ret', st1') := getCachedResults "a" None 3 (setCachedResults "b" 0 2 st) in
  ret' = ret /\ returned_array st1' ret' = returned_array st1 ret.
Proof.
  intros st.
  apply (setCachedResults_other_key "b" "a" 0 2 3 None st).
  - unfold st. apply results_wf_set, results_wf_empty.
  - discriminate.
Defined.

(** ** Keys see values through their JSON text *)

Section JsonText.
Context `{Host}.

Lemma same_json_shape_lookup (acc1 acc2 : JsObject) (k : string) :
  same_json_shape acc1 acc2 ->
  obj_lookup acc1 k = None <-> obj_lookup acc2 k = None.
Proof.
  induction 1 as [|[k1 v1] [k2 v2] acc1 acc2 [Hk _] _ IH]; simpl in *; [done|].
  subst k2. by destruct (String.eqb k1 k).
Qed.

Lemma same_json_shape_set (acc1 acc2 : JsObject) (k : string) (v1 v2 : JsValue) :
  same_json_shape acc1 acc2 ->
  SerializeJSONProperty v1 = SerializeJSONProperty v2 ->
  same_json_shape (obj_set acc1 k v1) (obj_set acc2 k v2).
Proof.
  intros Hacc Hv. unfold obj_set.
  pose proof (same_json_shape_lookup acc1 acc2 k Hacc) as Hl.
  destruct (obj_lookup acc1 k) as [w1|] eqn:H1;
    destruct (obj_lookup acc2 k) as [w2|] eqn:H2;
    try (by destruct Hl as [Hl1 Hl2]; first [specialize (Hl1 eq_refl)|specialize (Hl2 eq_refl)]).
  - clear H1 H2 Hl.
    induction Hacc as [|[k1 u1] [k2 u2] acc1 acc2 [Hk Hu] Hrest IH]; simpl in *;
      [constructor|].
    subst k2. destruct (String.eqb k1 k); by constructor.
  - destruct (String.eqb k "__proto__"); [done|].
    destruct (array_index k) as [n|].
    + clear H1 H2 Hl.
      induction Hacc as [|[k1 u1] [k2 u2] acc1 acc2 [Hk Hu] Hrest IH]; simpl in *.
      * by repeat constructor.
      * subst k2. destruct (array_index k1) as [m|]; [destruct (m <? n)%N|];
          repeat (constructor; try done).
    + apply Forall2_app; [done|]. by repeat constructor.
Qed.

Lemma same_json_shape_members (acc1 acc2 : JsObject) :
  same_json_shape acc1 acc2 -> json_members acc1 = json_members acc2.
Proof.
  induction 1 as [|[k1 v1] [k2 v2] acc1 acc2 [Hk Hv] _ IH]; simpl in *; [done|].
  subst k2. by rewrite Hv, IH.
Qed.

Lemma same_in_key_kept (o1 o2 : JsObject) :
  Object_keys o1 = Object_keys o2 ->
  (forall key, same_in_key (obj_get o1 key) (obj_get o2 key)) ->
  kept_keys o1 = kept_keys o2.
Proof.
  intros Hkeys Hsame. unfold kept_keys. rewrite Hkeys.
  apply List.filter_ext. intros key. apply Hsame.
Qed.

Lemma same_in_key_opts (o1 o2 : JsObject) :
  Object_keys o1 = Object_keys o2 ->
  (forall key, same_in_key (obj_get o1 key) (obj_get o2 key)) ->
  SerializeJSONObject (serializableOpts o1) = SerializeJSONObject (serializableOpts o2).
Proof.
  intros Hkeys Hsame. unfold SerializeJSONObject. f_equal.
  apply same_json_shape_members. unfold serializableOpts.
  change (List.filter _ (Object_keys o1)) with (kept_keys o1).
  change (List.filter _ (Object_keys o2)) with (kept_keys o2).
  rewrite <- (same_in_key_kept o1 o2 Hkeys Hsame).
  assert (forall keys (acc1 acc2 : JsObject),
            Forall (fun k => k ∈ kept_keys o1) keys ->
            same_json_shape acc1 acc2 ->
            same_json_shape
              (foldl (fun acc k => obj_set acc k (obj_get o1 k)) acc1 keys)
              (foldl (fun acc k => obj_set acc k (obj_get o2 k)) acc2 keys)) as Hfold.
  { induction keys as [|k keys IH]; intros acc1 acc2 Hks Hacc; simpl; [done|].
    inversion Hks as [|? ? Hk Hrest]; subst. apply IH; [done|].
    apply same_json_shape_set; [done|].
    apply Hsame. apply elem_of_kept_keys in Hk as (v & Hl & Hs).
    unfold obj_get. by rewrite Hl. }
  apply Hfold; [|constructor].
  apply Forall_forall. intros k Hk. by rewrite <- (Array_sort_perm (kept_keys o1)).
Qed.

(** X24. The keys see an option value only as its JSON text.  Two
    option structures with the same names in the same order, whose values
    pass the filter alike and, when they pass, have the same JSON text,
    give the same pattern-cache key and the same result-cache key; so do
    two numbers that are not finite (both are written [null]), and a
    value that is [undefined] and one that is a symbol (both are left
    out). *)
Theorem keys_see_json_text (o1 o2 : JsObject) (pattern : string)
    (pat : PatternArg) (cwd : string) (h : Heap) `{!Engine} :
  Object_keys o1 = Object_keys o2 ->
  (forall key, same_in_key (obj_get o1 key) (obj_get o2 key)) ->
  pattern_cacheKey pattern o1 = pattern_cacheKey pattern o2 /\
  createCacheKey pat cwd o1 h = createCacheKey pat cwd o2 h /\
  (forall n1 n2, num_is_finite n1 = false -> num_is_finite n2 = false ->
                 same_in_key (VNumber n1) (VNumber n2)) /\
  (forall id, same_in_key VUndefined (VSymbol id)).
Proof.
  intros Hkeys Hsame.
  pose proof (same_in_key_opts o1 o2 Hkeys Hsame) as Hopts.
  split; [|split; [|split]].
  - unfold pattern_cacheKey, JSON_stringify.
    cbn [json_fields mbind Completion_bind]. by rewrite Hopts.
  - rewrite !createCacheKey_projection. unfold JSON_stringify.
    destruct pat; cbn [json_fields mbind Completion_bind]; by rewrite Hopts.
  - intros n1 n2 H1 H2. split; [done|]. intros _. simpl. by rewrite H1, H2.
  - intros id. by split.
Qed.

End JsonText.

(** The instance of X24 at an option that is [undefined] in one structure
    and a symbol in the other. *)
Lemma keys_see_json_text_witness :
  pattern_cacheKey "*.js" [("dot", VBool true); ("mark", VUndefined)] =
  pattern_cacheKey "*.js" [("dot", VBool true); ("mark", VSymbol 1)].
Proof.
  apply (keys_see_json_text [("dot", VBool true); ("mark", VUndefined)]
           [("dot", VBool true); ("mark", VSymbol 1)] "*.js" (PString "*.js") "/w" []).
  - reflexivity.
  - intros key. unfold obj_get, same_in_key. cbn [obj_lookup].
    destruct (String.eqb "dot" key); [split; reflexivity|].
    destruct (String.eqb "mark" key); split; reflexivity.
Defined.
